(* ===================================================================== *)
(* Popper: the generate / test / constrain loop of popper.py and the      *)
(* evaluator of popper/tester.py, embedded shallowly.                     *)
(* ===================================================================== *)

From Stdlib Require Import ZArith Lia.
From stdpp Require Import base gmap sets list strings pretty.

Local Open Scope Z_scope.

(* --------------------------------------------------------------------- *)
(* popper.py, lines 12-30: outcomes, constraint kinds and the table       *)
(* --------------------------------------------------------------------- *)

(** class Outcome: three string constants used as an enumeration. *)
Inductive Outcome : Type := ALL | SOME | NONE.

(** class Con: four string constants used as an enumeration. *)
Inductive Con : Type := GENERALISATION | SPECIALISATION | REDUNDANCY | BANISH.

(** The string each constant stands for in the source. *)
Definition Outcome_value (o : Outcome) : string :=
  match o with ALL => "all" | SOME => "some" | NONE => "none" end.

Definition Con_value (c : Con) : string :=
  match c with
  | GENERALISATION => "generalisation"
  | SPECIALISATION => "specialisation"
  | REDUNDANCY => "redundancy"
  | BANISH => "banish"
  end.

#[global] Instance Outcome_eq_dec : EqDecision Outcome.
Proof. solve_decision. Defined.

#[global] Instance Con_eq_dec : EqDecision Con.
Proof. solve_decision. Defined.

#[global] Instance Outcome_countable : Countable Outcome.
Proof.
  refine (inj_countable'
            (λ o, match o with ALL => 0%nat | SOME => 1%nat | NONE => 2%nat end)
            (λ n, match n with 0%nat => ALL | 1%nat => SOME | _ => NONE end) _).
  by intros [].
Defined.

(** OUTCOME_TO_CONSTRAINTS: a dict from pairs of outcomes to tuples of
    constraint kinds; a key that is absent makes the subscript raise
    KeyError, which is [None] of the lookup here. *)
Definition OUTCOME_TO_CONSTRAINTS : gmap (Outcome * Outcome) (list Con) :=
  list_to_map
    [ ((ALL, NONE),  [BANISH]);
      ((ALL, SOME),  [GENERALISATION]);
      ((SOME, NONE), [SPECIALISATION]);
      ((SOME, SOME), [SPECIALISATION; GENERALISATION]);
      ((NONE, NONE), [SPECIALISATION; REDUNDANCY]);
      ((NONE, SOME), [SPECIALISATION; REDUNDANCY; GENERALISATION]) ].

(* --------------------------------------------------------------------- *)
(* popper.py, lines 51-67 and 107-109: classifier and score               *)
(* --------------------------------------------------------------------- *)

(** A confusion matrix is the tuple (tp, fn, tn, fp) of Python integers. *)
Definition ConfMatrix : Type := Z * Z * Z * Z.

Definition decide_outcome (conf_matrix : ConfMatrix) : Outcome * Outcome :=
  let '(tp, fn, tn, fp) := conf_matrix in
  let positive_outcome :=
    if fn =? 0 then ALL
    else if (tp =? 0) && (fn >? 0) then NONE
    else SOME in
  let negative_outcome :=
    if fp =? 0 then NONE else SOME in
  (positive_outcome, negative_outcome).

Definition calc_score (conf_matrix : ConfMatrix) : Z :=
  let '(tp, fn, tn, fp) := conf_matrix in
  tp + tn.

(** Lines 70-73 of build_rules: a negative outcome ALL is replaced by SOME
    before the table is consulted. *)
Definition remap_negative (outcome : Outcome * Outcome) : Outcome * Outcome :=
  let '(positive_outcome, negative_outcome) := outcome in
  let negative_outcome :=
    if decide (negative_outcome = ALL) then SOME else negative_outcome in
  (positive_outcome, negative_outcome).

(** Line 76: the subscript OUTCOME_TO_CONSTRAINTS[(positive, negative)]
    after the remap. *)
Definition constraint_types (outcome : Outcome * Outcome) : option (list Con) :=
  OUTCOME_TO_CONSTRAINTS !! remap_negative outcome.

(* --------------------------------------------------------------------- *)
(* The collaborators that popper.py and tester.py import                  *)
(* --------------------------------------------------------------------- *)

(** popper.util.Settings: the attributes the loop reads. *)
Record Settings : Type := {
  max_literals : Z;
  functional_test : bool;
  debug : bool
}.

(** enumerate(xs, start=1) *)
Definition enumerate1 {A} (xs : list A) : list (Z * A) :=
  zip (seqZ 1 (Z.of_nat (length xs))) xs.

Section Interfaces.

(** popper.core: literals are opaque but for their [meta] flag; a clause
    is the pair (head, body); a program is iterated as a sequence of
    clauses. *)
Context {Literal : Type} `{Countable Literal}.
Context {Assignment GroundClause : Type} `{Countable GroundClause}.
Context {Before MinClause Model Solver : Type}.

Local Abbreviation Clause := (Literal * list Literal)%type.
Local Abbreviation Program := (list (Literal * list Literal)).

(** popper.core: Literal.meta, Clause.is_separable, Clause.clause_hash
    and Grounding.ground_clause. *)
Record Core : Type := {
  meta : Literal → bool;
  is_separable : Clause → bool;
  clause_hash : Clause → Z;
  ground_clause : Clause → Assignment → GroundClause
}.

(** pyswip.Prolog loaded with the background knowledge, test.pl and the
    examples: what the engine answers to the four queries of tester.py.
    [success_set_Xs rules] is the binding of Xs in the first solution of
    success_set(Xs) while [rules] are asserted; the other three tell
    whether the list of solutions is non-empty. *)
Record Engine : Type := {
  success_set_Xs : Program → list Z;
  redundant_literal : Clause → bool;
  redundant_clause : Program → bool;
  non_functional : Program → bool
}.

(** popper.constrain.Constrain: each method returns the clauses it
    derives, as an iterable. *)
Record Constrain : Type := {
  generalisation_constraint : Program → Before → MinClause → list Clause;
  specialisation_constraint : Program → Before → MinClause → list Clause;
  redundancy_constraint : Program → Before → MinClause → list Clause;
  banish_constraint : Program → Before → MinClause → list Clause;
  redundant_literal_constraint : Clause → Before → MinClause → list Clause
}.

(** popper.asp.ClingoSolver, as a state machine over [Solver], together
    with popper.generate.generate_program. [get_model] gives [None] for
    a falsy model. *)
Record ClingoSolver : Type := {
  new_solver : Settings → Solver;
  update_number_of_literals : Z → Solver → Solver;
  get_model : Solver → option Model * Solver;
  add_ground_clauses : gset GroundClause → Solver → Solver;
  max_clauses : Solver → Z;
  max_vars : Solver → Z;
  generate_program : Model → Program * Before * MinClause
}.

End Interfaces.

(* --------------------------------------------------------------------- *)
(* A small learning problem on which the model is run                     *)
(* --------------------------------------------------------------------- *)

Module Toy.

(** The literals of the problem: the head f, the body literals p and q, and
    the literals of constraints, of which [lt] is a meta literal. *)
Inductive Literal : Type :=
| head_f | body_p | body_q
| head_false | included_clause | clause_size | clause_lit | body_literal
| lt.

#[global] Instance Literal_eq_dec : EqDecision Literal.
Proof. solve_decision. Defined.

#[global] Instance Literal_countable : Countable Literal.
Proof.
  refine (inj_countable'
            (λ l, match l with
                  | head_f => 0 | body_p => 1 | body_q => 2
                  | head_false => 3 | included_clause => 4 | clause_size => 5
                  | clause_lit => 6 | body_literal => 7 | lt => 8
                  end%nat)
            (λ n, match n with
                  | 0 => head_f | 1 => body_p | 2 => body_q
                  | 3 => head_false | 4 => included_clause | 5 => clause_size
                  | 6 => clause_lit | 7 => body_literal | _ => lt
                  end%nat) _).
  by intros [].
Defined.

(** Two candidate programs for f/1, and a clause with two body literals. *)
Definition via_q : list (Literal * list Literal) := [ (head_f, [body_q]) ].
Definition via_p : list (Literal * list Literal) := [ (head_f, [body_p]) ].
Definition via_pq : Literal * list Literal := (head_f, [body_p; body_q]).

(** A constraint whose body has two standard literals and a meta one. *)
Definition a_constraint : Literal * list Literal :=
  (head_false, [included_clause; lt; clause_size]).

(** A binding is a number; a ground clause keeps the clause and the
    binding it came from. *)
Definition core : @Core Literal Z ((Literal * list Literal) * Z) :=
  {| meta := λ literal, bool_decide (literal = lt);
     is_separable := λ _, true;
     clause_hash := λ clause, Z.pos (encode clause);
     ground_clause := λ clause assignment, (clause, assignment) |}.

(** With two positive examples (1, 2) and one negative (-1): via_p covers
    exactly the positives, anything else covers 1 and -1. *)
Definition engine : @Engine Literal :=
  {| success_set_Xs := λ rules, if decide (rules = via_p) then [1; 2] else [1; -1];
     redundant_literal := λ clause, bool_decide (1 < length clause.2)%nat;
     redundant_clause := λ _, false;
     non_functional := λ _, false |}.

Definition constrainer : @Constrain Literal unit unit :=
  {| generalisation_constraint := λ _ _ _, [a_constraint];
     specialisation_constraint := λ _ _ _, [(head_false, [clause_lit; lt])];
     redundancy_constraint := λ _ _ _, [(head_false, [body_literal])];
     banish_constraint := λ _ _ _, [(head_false, [included_clause])];
     redundant_literal_constraint := λ clause _ _, [(head_false, clause.2)] |}.

(** The solver hands out the programs of a queue and ignores constraints. *)
Definition clingo
  : @ClingoSolver Literal ((Literal * list Literal) * Z) _ _ unit unit
                  (list (Literal * list Literal)) (list (list (Literal * list Literal))) :=
  {| new_solver := λ _, [via_q; via_p];
     update_number_of_literals := λ _ s, s;
     get_model := λ s, match s with [] => (None, []) | m :: s => (Some m, s) end;
     add_ground_clauses := λ _ s, s;
     max_clauses := λ _, 2;
     max_vars := λ _, 3;
     generate_program := λ m, (m, (), ()) |}.

(** The binder answers two bindings, and a third one for a clause that has
    a meta literal in its body. *)
Definition find_bindings (clause : Literal * list Literal) (max_clauses max_vars : Z)
  : list Z :=
  if existsb (λ literal, bool_decide (literal = lt)) clause.2
  then [0; 1; 0] else [0; 1].

Definition settings : Settings :=
  {| max_literals := 2; functional_test := true; debug := false |}.

(** The answers of pos(X) and neg(X). *)
Definition pos_answers : list string := ["f(a)"; "f(b)"].
Definition neg_answers : list string := ["f(c)"].

(** An engine whose success set depends on which clauses are asserted
    only, and otherwise as [engine]. *)
Definition blind_engine : @Engine Literal :=
  {| success_set_Xs := λ rules,
       if bool_decide ((head_f, [body_p]) ∈ rules) then [1; 2] else [1; -1];
     redundant_literal := redundant_literal engine;
     redundant_clause := redundant_clause engine;
     non_functional := non_functional engine |}.

End Toy.

Section Popper.

Context {Literal : Type} `{Countable Literal}.
Context {Assignment GroundClause : Type} `{Countable GroundClause}.
Context {Before MinClause Model Solver : Type}.

Local Abbreviation Clause := (Literal * list Literal)%type.
Local Abbreviation Program := (list (Literal * list Literal)).

Variable core : @Core Literal Assignment GroundClause.
Variable engine : @Engine Literal.
Variable clingo : @ClingoSolver Literal GroundClause _ _ Before MinClause Model Solver.
(** popper.asp.ClingoGrounder.find_bindings: the bindings it answers. *)
Variable find_bindings : Clause → Z → Z → list Assignment.

(* ------------------------------------------------------------------- *)
(* popper/tester.py                                                     *)
(* ------------------------------------------------------------------- *)

(** A query sent to self.prolog by one of the Tester's methods. *)
Inductive Query : Type :=
| success_set_query (rules : Program)
| redundant_literal_query (clause : Clause)
| redundant_clause_query (program : Program)
| non_functional_query (program : Program).

(** The Tester object: the example indices, the two caches, and the
    queries its engine has received so far, oldest first. The attributes
    settings, eval_timeout and seen_tests play no part after __init__. *)
Record Tester : Type := {
  pos : list Z;
  neg : list Z;
  already_checked_redundant_literals : gset Z;
  seen_prog : gmap (gset Clause) (gset Z);
  prolog : list Query
}.

Definition asked (t : Tester) (q : Query) : Tester :=
  {| pos := pos t; neg := neg t;
     already_checked_redundant_literals := already_checked_redundant_literals t;
     seen_prog := seen_prog t;
     prolog := prolog t ++ [q] |}.

(** load_examples: positive examples get the indices 1, 2, ... and
    negative examples the indices -1, -2, ... *)
Definition load_examples {Term} (pos_answers neg_answers : list Term)
  : list Z * list Z :=
  ((λ ix, ix.1) <$> enumerate1 pos_answers,
   (λ ix, - ix.1) <$> enumerate1 neg_answers).

(** Tester.__init__ *)
Definition new_tester {Term} (pos_answers neg_answers : list Term) : Tester :=
  let '(pos, neg) := load_examples pos_answers neg_answers in
  {| pos := pos; neg := neg;
     already_checked_redundant_literals := ∅;
     seen_prog := ∅;
     prolog := [] |}.

(** Tester.success_set: memoised on frozenset(rules). *)
Definition success_set (t : Tester) (rules : Program) : gset Z * Tester :=
  let prog_hash : gset Clause := list_to_set rules in
  match seen_prog t !! prog_hash with
  | Some xs => (xs, t)
  | None =>
      let xs : gset Z := list_to_set (success_set_Xs engine rules) in
      (xs,
       {| pos := pos t; neg := neg t;
          already_checked_redundant_literals := already_checked_redundant_literals t;
          seen_prog := <[prog_hash := xs]> (seen_prog t);
          prolog := prolog t ++ [success_set_query rules] |})
  end.

(** Lines 102-107 of Tester.test. *)
Definition covered_by (t : Tester) (rules : Program) : gset Z * Tester :=
  if forallb (is_separable core) rules then
    foldl (λ '(covered, t) rule,
             let '(xs, t) := success_set t [rule] in (covered ∪ xs, t))
          (∅, t) rules
  else success_set t rules.

(** Lines 110-114 and 115-119 of Tester.test, on the four counters. *)
Definition count_pos (covered : gset Z) (acc : ConfMatrix) (p : Z) : ConfMatrix :=
  let '(tp, fn, tn, fp) := acc in
  if decide (p ∈ covered) then (tp + 1, fn, tn, fp) else (tp, fn + 1, tn, fp).

Definition count_neg (covered : gset Z) (acc : ConfMatrix) (n : Z) : ConfMatrix :=
  let '(tp, fn, tn, fp) := acc in
  if decide (n ∈ covered) then (tp, fn, tn, fp + 1) else (tp, fn, tn + 1, fp).

(** Tester.test *)
Definition test (t : Tester) (rules : Program) : ConfMatrix * Tester :=
  let '(covered, t) := covered_by t rules in
  let counts := foldl (count_pos covered) (0, 0, 0, 0) (pos t) in
  let counts := foldl (count_neg covered) counts (neg t) in
  (counts, t).

(** Tester.check_redundant_literal. The source is a generator; its only
    caller (build_rules, line 90) runs it to the end, so the model gives
    the yielded clauses in order together with the Tester afterwards. *)
Fixpoint check_redundant_literal (t : Tester) (program : Program)
  : list Clause * Tester :=
  match program with
  | [] => ([], t)
  | clause :: program =>
      let k := clause_hash core clause in
      if decide (k ∈ already_checked_redundant_literals t) then
        check_redundant_literal t program
      else
        let t :=
          {| pos := pos t; neg := neg t;
             already_checked_redundant_literals :=
               already_checked_redundant_literals t ∪ {[ k ]};
             seen_prog := seen_prog t;
             prolog := prolog t ++ [redundant_literal_query clause] |} in
        let res := redundant_literal engine clause in
        let '(yielded, t) := check_redundant_literal t program in
        (if res then clause :: yielded else yielded, t)
  end.

(** Tester.check_redundant_clause (truth value of the list returned). *)
Definition check_redundant_clause (t : Tester) (program : Program) : bool * Tester :=
  (redundant_clause engine program, asked t (redundant_clause_query program)).

(** Tester.is_non_functional (truth value of the list returned). *)
Definition is_non_functional (t : Tester) (program : Program) : bool * Tester :=
  (non_functional engine program, asked t (non_functional_query program)).

(** The order in which a run calls the Tester is free: these are its four
    public operations, and [tester_call] keeps the Tester each leaves. *)
Inductive TesterCall : Type :=
| call_test (rules : Program)
| call_check_redundant_literal (program : Program)
| call_check_redundant_clause (program : Program)
| call_is_non_functional (program : Program).

Definition tester_call (t : Tester) (c : TesterCall) : Tester :=
  match c with
  | call_test rules => (test t rules).2
  | call_check_redundant_literal program => (check_redundant_literal t program).2
  | call_check_redundant_clause program => (check_redundant_clause t program).2
  | call_is_non_functional program => (is_non_functional t program).2
  end.

(** Two testers with the same example indices. *)
Definition same_examples (t t' : Tester) : Prop :=
  pos t' = pos t ∧ neg t' = neg t.

(** The clauses the engine was asked redundant_literal(...) about. *)
Definition redundant_literal_queries (qs : list Query) : list Clause :=
  omap (λ q, match q with redundant_literal_query c => Some c | _ => None end) qs.

(* --------------------------------------------------------------------- *)
(* popper.py, lines 32-45: ground_rules                                   *)
(* --------------------------------------------------------------------- *)

(** The grounder object is kept as the find_bindings requests it has
    received, oldest first; [find_bindings] gives its answers. *)
Local Abbreviation Request := (Literal * list Literal * Z * Z)%type.

(** Lines 43-44: one out.add per assignment. *)
Definition add_groundings (clause : Clause) (out : gset GroundClause)
    (assignments : list Assignment) : gset GroundClause :=
  foldl (λ out assignment, out ∪ {[ ground_clause core clause assignment ]})
        out assignments.

(** Lines 35-44: the body of the for loop, on [out] and the grounder. *)
Definition ground_rule (max_clauses max_vars : Z)
    (acc : gset GroundClause * list Request) (clause : Clause)
  : gset GroundClause * list Request :=
  let '(out, grounder) := acc in
  let '(head, body) := clause in
  let assignments := find_bindings clause max_clauses max_vars in
  let grounder := grounder ++ [(clause, max_clauses, max_vars)] in
  let body := filter (λ literal, ¬ meta core literal) body in
  (add_groundings (head, body) out assignments, grounder).

Definition ground_rules (grounder : list Request) (max_clauses max_vars : Z)
    (clauses : list Clause) : gset GroundClause * list Request :=
  foldl (ground_rule max_clauses max_vars) (∅, grounder) clauses.

(** No literal of the body of [clause] has its meta flag set. *)
Definition no_meta_body (clause : Clause) : bool :=
  forallb (λ literal, negb (meta core literal)) clause.2.

(* --------------------------------------------------------------------- *)
(* popper.py, lines 69-103: build_rules                                   *)
(* --------------------------------------------------------------------- *)

(** Lines 77-84: the constrainer method a constraint kind selects. *)
Definition constraint_of (constrainer : @Constrain Literal Before MinClause)
    (constraint_type : Con) (program : Program) (before : Before)
    (min_clause : MinClause) : list Clause :=
  match constraint_type with
  | GENERALISATION => generalisation_constraint constrainer program before min_clause
  | SPECIALISATION => specialisation_constraint constrainer program before min_clause
  | REDUNDANCY => redundancy_constraint constrainer program before min_clause
  | BANISH => banish_constraint constrainer program before min_clause
  end.

(** build_rules; [None] is the KeyError of the subscript at line 76. The
    debug printing of lines 97-101 has no effect on the result. *)
Definition build_rules (settings : Settings)
    (constrainer : @Constrain Literal Before MinClause) (tester : Tester)
    (program : Program) (before : Before) (min_clause : MinClause)
    (outcome : Outcome * Outcome) : option (gset Clause * Tester) :=
  match OUTCOME_TO_CONSTRAINTS !! remap_negative outcome with
  | None => None
  | Some kinds =>
      let rules : gset Clause :=
        foldl (λ rules constraint_type,
                 rules ∪ list_to_set
                   (constraint_of constrainer constraint_type program before min_clause))
              ∅ kinds in
      let '(rules, tester) :=
        if functional_test settings then
          let '(non_func, tester) := is_non_functional tester program in
          (if non_func
           then rules ∪ list_to_set
                  (generalisation_constraint constrainer program before min_clause)
           else rules, tester)
        else (rules, tester) in
      let '(yielded, tester) := check_redundant_literal tester program in
      let rules :=
        foldl (λ rules rule,
                 rules ∪ list_to_set
                   (redundant_literal_constraint constrainer rule before min_clause))
              rules yielded in
      let '(red_clause, tester) := check_redundant_clause tester program in
      let rules :=
        if red_clause
        then rules ∪ list_to_set
               (generalisation_constraint constrainer program before min_clause)
        else rules in
      Some (rules, tester)
  end.

(* --------------------------------------------------------------------- *)
(* popper.py, lines 123-177: popper                                       *)
(* --------------------------------------------------------------------- *)

(** Constrain() of line 128. *)
Variable constrainer : @Constrain Literal Before MinClause.

(** What the loop owns: the solver, the tester, the grounder (as its
    requests), stats.total_programs, the local best_score and the entry
    args[PROG_KEY] ([None] while the key is absent). *)
Record Run : Type := {
  solver : Solver;
  tester : Tester;
  grounder : list Request;
  total_programs : Z;
  best_score : option Z;
  args : option (Program * ConfMatrix)
}.

(** The names an attribute reference on a Tester object finds, besides
    those every object has: the instance attributes assigned by __init__
    (lines 14-20) and by load_examples (lines 26-27), and the methods of
    the class. *)
Definition Tester_attributes : list string :=
  ["settings"; "prolog"; "eval_timeout";
   "already_checked_redundant_literals"; "seen_tests"; "seen_prog";
   "pos"; "neg";
   "first_result"; "load_examples"; "load_basic"; "using";
   "check_redundant_literal"; "check_redundant_clause"; "is_non_functional";
   "success_set"; "test"; "is_totally_incomplete"; "is_inconsistent"].

(** hasattr(tester, name) *)
Definition hasattr_Tester (name : string) : bool :=
  bool_decide (name ∈ Tester_attributes).

(** The exception of an attribute reference that finds nothing. *)
Inductive Exception : Type :=
| AttributeError (type_name name : string).

(** Lines 127-129: the state in which the for loop of line 131 is entered
    with a solver and a Tester: a new grounder, which has received no
    request, and best_score = None. *)
Definition loop_entry (solver : Solver) (tester : Tester) (stats : Z)
    (args : option (Program * ConfMatrix)) : Run :=
  {| solver := solver;
     tester := tester;
     grounder := [];
     total_programs := stats;
     best_score := None;
     args := args |}.

(** Lines 124-129, with the answers of pos(X) and neg(X) that
    load_examples reads. Line 126 reads tester.num_pos and then
    tester.num_neg; a name the Tester does not have raises
    AttributeError, and lines 127-129 are not reached. *)
Definition popper_init {Term} (settings : Settings) (stats : Z)
    (args : option (Program * ConfMatrix))
    (pos_answers neg_answers : list Term) : Run + Exception :=
  let solver := new_solver clingo settings in
  let tester := new_tester pos_answers neg_answers in
  if negb (hasattr_Tester "num_pos") then
    inr (AttributeError "Tester" "num_pos")
  else if negb (hasattr_Tester "num_neg") then
    inr (AttributeError "Tester" "num_neg")
  else inl (loop_entry solver tester stats args).

(** Line 134: solver.update_number_of_literals(size). *)
Definition popper_size (size : Z) (r : Run) : Run :=
  {| solver := update_number_of_literals clingo size (solver r);
     tester := tester r; grounder := grounder r;
     total_programs := total_programs r;
     best_score := best_score r; args := args r |}.

(** Line 151: best_score == None or score > best_score. *)
Definition is_new_best (best_score : option Z) (score : Z) : bool :=
  match best_score with
  | None => true
  | Some best => score >? best
  end.

(** How one pass through the body of the while loop ends: at its end
    (Continue), at the break of line 140, at the return of line 159, or
    with the KeyError of build_rules. *)
Inductive Step : Type :=
| Continue (r : Run)
| Break (r : Run)
| Return (r : Run)
| Raise (r : Run).

(** Lines 136-174, without the timing of stats.duration and the debug
    printing of lines 154-155 and 161-162. (print_dbg is handed the Tester
    and reads num_pos and num_neg from it, the two names line 126 has
    found when the loop is entered.) *)
Definition popper_body (settings : Settings) (r : Run) : Step :=
  let '(model, solver) := get_model clingo (solver r) in
  match model with
  | None =>
      Break {| solver := solver; tester := tester r; grounder := grounder r;
               total_programs := total_programs r;
               best_score := best_score r; args := args r |}
  | Some model =>
      let '(program, before, min_clause) := generate_program clingo model in
      let total_programs := total_programs r + 1 in
      let '(conf_matrix, tester) := test (tester r) program in
      let score := calc_score conf_matrix in
      let '(best_score, args) :=
        if is_new_best (best_score r) score
        then (Some score, Some (program, conf_matrix))
        else (best_score r, args r) in
      let outcome := decide_outcome conf_matrix in
      if decide (outcome = (ALL, NONE)) then
        Return {| solver := solver; tester := tester; grounder := grounder r;
                  total_programs := total_programs;
                  best_score := best_score; args := args |}
      else
        match build_rules settings constrainer tester program before min_clause
                          outcome with
        | None =>
            Raise {| solver := solver; tester := tester; grounder := grounder r;
                     total_programs := total_programs;
                     best_score := best_score; args := args |}
        | Some (rules, tester) =>
            let '(rules, grounder) :=
              ground_rules (grounder r) (max_clauses clingo solver)
                           (max_vars clingo solver) (elements rules) in
            let solver := add_ground_clauses clingo rules solver in
            Continue {| solver := solver; tester := tester; grounder := grounder;
                        total_programs := total_programs;
                        best_score := best_score; args := args |}
        end
  end.

(** How a run ends: by the return of line 159, after NO MORE SOLUTIONS, by
    an exception, or not within the passes allowed to one while loop. *)
Inductive Finish : Type :=
| Found (r : Run)
| NoMoreSolutions (r : Run)
| Raised (r : Run)
| Unfinished (r : Run).

Definition final (f : Finish) : Run :=
  match f with
  | Found r | NoMoreSolutions r | Raised r | Unfinished r => r
  end.

(** The while loop of line 135, for at most [fuel] passes; [inl] is the
    break that hands over to the next size. *)
Fixpoint popper_while (fuel : nat) (settings : Settings) (r : Run)
  : Run + Finish :=
  match fuel with
  | O => inr (Unfinished r)
  | S fuel =>
      match popper_body settings r with
      | Continue r => popper_while fuel settings r
      | Break r => inl r
      | Return r => inr (Found r)
      | Raise r => inr (Raised r)
      end
  end.

(** The for loop of line 131 over the sizes still to come. *)
Fixpoint popper_for (fuel : nat) (settings : Settings) (sizes : list Z)
    (r : Run) : Finish :=
  match sizes with
  | [] => NoMoreSolutions r
  | size :: sizes =>
      match popper_while fuel settings (popper_size size r) with
      | inl r => popper_for fuel settings sizes r
      | inr f => f
      end
  end.

(** Lines 131-177: the for loop and what follows it;
    range(1, max_literals + 1) is [seqZ 1 max_literals]. *)
Definition popper_loop (fuel : nat) (settings : Settings) (r : Run) : Finish :=
  popper_for fuel settings (seqZ 1 (max_literals settings)) r.

(** popper(settings, stats, args): the set-up of lines 124-129, and the
    loop when the set-up gets through. *)
Definition popper {Term} (fuel : nat) (settings : Settings) (stats : Z)
    (args : option (Program * ConfMatrix))
    (pos_answers neg_answers : list Term) : Finish + Exception :=
  match popper_init settings stats args pos_answers neg_answers with
  | inl r => inl (popper_loop fuel settings r)
  | inr e => inr e
  end.

(** The states in which a run can stand at the head of its while loop. *)
Inductive reachable (settings : Settings) (init : Run) : Run → Prop :=
| reach_init : reachable settings init init
| reach_size r size :
    reachable settings init r → reachable settings init (popper_size size r)
| reach_continue r r' :
    reachable settings init r → popper_body settings r = Continue r' →
    reachable settings init r'
| reach_break r r' :
    reachable settings init r → popper_body settings r = Break r' →
    reachable settings init r'.

(** best_score as an order: None is below every score. *)
Definition score_le (a b : option Z) : Prop :=
  match a, b with
  | None, _ => True
  | Some _, None => False
  | Some x, Some y => x ≤ y
  end.

(** The redundant-literal cache agrees with the queries made: no two
    queries have the same signature, and every signature queried is in
    already_checked_redundant_literals. *)
Definition cache_inv (t : Tester) : Prop :=
  NoDup (clause_hash core <$> redundant_literal_queries (prolog t)) ∧
  ∀ c, c ∈ redundant_literal_queries (prolog t) →
       clause_hash core c ∈ already_checked_redundant_literals t.

(** [t'] has the redundant-literal queries and cache of [t]. *)
Definition same_checked (t t' : Tester) : Prop :=
  redundant_literal_queries (prolog t') = redundant_literal_queries (prolog t) ∧
  already_checked_redundant_literals t' = already_checked_redundant_literals t.

(** A constrainer that derives nothing from a redundant literal of a
    clause with the signature [k], and is [constr] otherwise. *)
Definition no_redundant_literal_constraint_for (k : Z)
    (constr : @Constrain Literal Before MinClause)
  : @Constrain Literal Before MinClause :=
  {| generalisation_constraint := generalisation_constraint constr;
     specialisation_constraint := specialisation_constraint constr;
     redundancy_constraint := redundancy_constraint constr;
     banish_constraint := banish_constraint constr;
     redundant_literal_constraint := λ rule before min_clause,
       if decide (clause_hash core rule = k) then []
       else redundant_literal_constraint constr rule before min_clause |}.

(** The Run a pass through the loop body leaves. *)
Definition after (s : Step) : Run :=
  match s with
  | Continue r | Break r | Return r | Raise r => r
  end.

(** The Run a while loop leaves. *)
Definition loop_final (w : Run + Finish) : Run :=
  match w with
  | inl r => r
  | inr f => final f
  end.

(** No candidate tested so far was exact: the recorded best score, if
    any, is below the number of examples. *)
Definition run_inv (r : Run) : Prop :=
  ∀ best, best_score r = Some best →
          best < Z.of_nat (length (pos (tester r)))
                 + Z.of_nat (length (neg (tester r))).

(* --------------------------------------------------------------------- *)
(* popper/tester.py, lines 123-131 and 55-67; popper.py, lines 117-121    *)
(* --------------------------------------------------------------------- *)

(** any(x in self.success_set([rule]) for x in xs): success_set is called
    anew for every x, and the search stops at the first x found. *)
Fixpoint any_in_success_set (t : Tester) (rule : Clause) (xs : list Z)
  : bool * Tester :=
  match xs with
  | [] => (false, t)
  | x :: xs =>
      let '(covered, t) := success_set t [rule] in
      if decide (x ∈ covered) then (true, t)
      else any_in_success_set t rule xs
  end.

(** Tester.is_totally_incomplete *)
Definition is_totally_incomplete (t : Tester) (rule : Clause) : bool * Tester :=
  if negb (is_separable core rule) then (false, t)
  else
    let '(found, t') := any_in_success_set t rule (pos t) in
    (negb found, t').

(** Tester.is_inconsistent *)
Definition is_inconsistent (t : Tester) (rule : Clause) : bool * Tester :=
  if negb (is_separable core rule) then (false, t)
  else any_in_success_set t rule (neg t).

(** print_conf_matrix, as the line it prints. settings.num_pos and
    settings.num_neg are the two attributes it reads. *)
Definition print_conf_matrix (num_pos num_neg : Z) (conf_matrix : ConfMatrix)
  : string :=
  let '(tp, fn, tn, fp) := conf_matrix in
  let approx_pos := if tp + fn <? num_pos then "+" else "" in
  let approx_neg := if tn + fp <? num_neg then "+" else "" in
  "TP: " +:+ pretty tp +:+ approx_pos +:+ ", FN: " +:+ pretty fn +:+ approx_pos
  +:+ ", TN: " +:+ pretty tn +:+ approx_neg +:+ ", FP: " +:+ pretty fp
  +:+ approx_neg.

(** What Tester.using sends to the engine. *)
Inductive Command : Type :=
| assertz (code : string)
| retractall (pattern : string).

Section Using.

(** popper.core: the attributes predicate and arity of a literal, and
    Clause.to_code after Clause.to_ordered. *)
Variable predicate : Literal → string.
Variable arity : Literal → nat.
Variable to_code_ordered : Clause → string.

(** Lines 57-62: the clauses are asserted in order, and the pair
    (predicate, arity) of each head is added to the set current_clauses. *)
Definition using_enter (rules : Program) : list Command * gset (string * nat) :=
  foldl (λ '(sent, current_clauses) rule,
           let '(head, body) := rule in
           (sent ++ [assertz (to_code_ordered rule)],
            current_clauses ∪ {[ (predicate head, arity head) ]}))
        ([], ∅) rules.

(** Lines 66-67: the pattern predicate(_,...,_) with arity underscores. *)
Definition retract_pattern (pa : string * nat) : string :=
  let '(predicate, arity) := pa in
  let args := String.concat "," (replicate arity "_") in
  predicate +:+ "(" +:+ args +:+ ")".

(** Lines 65-67: one retractall for each member of current_clauses. *)
Definition using_exit (current_clauses : gset (string * nat)) : list Command :=
  (λ pa, retractall (retract_pattern pa)) <$> elements current_clauses.

(** with self.using(rules): body, where the body sends [body] to the
    engine: the finally clause runs whatever the body does. (using is a
    reserved word here.) *)
Definition using_with (rules : Program) (body : list Command) : list Command :=
  let '(sent, current_clauses) := using_enter rules in
  sent ++ body ++ using_exit current_clauses.

End Using.

(** The success set the cache or, failing that, the engine holds for
    [rules] at the Tester [t]. *)
Definition known_success_set (t : Tester) (rules : Program) : gset Z :=
  default (list_to_set (success_set_Xs engine rules))
          (seen_prog t !! (list_to_set rules : gset Clause)).

(** Every success set in the cache seen_prog is what the engine answers
    for some list of rules with the clauses of the key. *)
Definition seen_prog_sound (t : Tester) : Prop :=
  ∀ (key : gset Clause) (xs : gset Z),
    seen_prog t !! key = Some xs →
    ∃ rules, list_to_set rules = key ∧
             xs = list_to_set (success_set_Xs engine rules).

(** The engine's success set depends on the clauses asserted only, not on
    their order or repetition. *)
Definition order_blind : Prop :=
  ∀ rules rules' : Program,
    (list_to_set rules : gset Clause) = list_to_set rules' →
    (list_to_set (success_set_Xs engine rules) : gset Z)
    = list_to_set (success_set_Xs engine rules').

(** What the tracker, the counter and the Tester's examples satisfy
    throughout a run started with the counter at [stats], the entry
    args[PROG_KEY] as [args0] and the examples of [t0]: while nothing is
    recorded no candidate has been counted; what is recorded is a program
    with a matrix over all the examples whose score is best_score. *)
Definition popper_inv (stats : Z) (args0 : option (Program * ConfMatrix))
    (t0 : Tester) (r : Run) : Prop :=
  same_examples t0 (tester r) ∧
  stats ≤ total_programs r ∧
  match best_score r with
  | None => total_programs r = stats ∧ args r = args0
  | Some best =>
      stats < total_programs r ∧
      ∃ program tp fn tn fp,
        args r = Some (program, (tp, fn, tn, fp)) ∧
        tp + tn = best ∧
        0 ≤ tp ∧ 0 ≤ fn ∧ 0 ≤ tn ∧ 0 ≤ fp ∧
        tp + fn = Z.of_nat (length (pos t0)) ∧
        tn + fp = Z.of_nat (length (neg t0))
  end.

(** The programs the engine was asked success_set(Xs) for. *)
Definition success_set_queries (qs : list Query) : list Program :=
  omap (λ q, match q with success_set_query rules => Some rules | _ => None end) qs.

(** The cache seen_prog agrees with the queries made: no two success_set
    queries were for the same set of clauses, and every set of clauses
    asked about is in the cache. *)
Definition seen_inv (t : Tester) : Prop :=
  NoDup ((λ rules, list_to_set rules : gset Clause)
           <$> success_set_queries (prolog t)) ∧
  ∀ rules, rules ∈ success_set_queries (prolog t) →
           is_Some (seen_prog t !! (list_to_set rules : gset Clause)).

(* ===================================================================== *)
(* Properties                                                             *)
(* ===================================================================== *)

(* --------------------------------------------------------------------- *)
(* The classifier and the table                                           *)
(* --------------------------------------------------------------------- *)

Lemma decide_outcome_positive (tp fn tn fp : Z) :
  (decide_outcome (tp, fn, tn, fp)).1 =
    if decide (fn = 0) then ALL
    else if decide (tp = 0 ∧ fn > 0) then NONE else SOME.
Proof.
  unfold decide_outcome; simpl.
  destruct (Z.eqb_spec fn 0), (Z.eqb_spec tp 0), (Z.gtb_spec fn 0);
    repeat case_decide; simpl; try reflexivity; lia.
Qed.

Lemma decide_outcome_negative (tp fn tn fp : Z) :
  (decide_outcome (tp, fn, tn, fp)).2 = if decide (fp = 0) then NONE else SOME.
Proof.
  unfold decide_outcome; simpl.
  destruct (Z.eqb_spec fp 0); case_decide; try reflexivity; lia.
Qed.

(** C1. For every confusion matrix (tp, fn, tn, fp), and so for every one
    of non-negative counts, decide_outcome gives the positive outcome ALL
    exactly when fn = 0, NONE exactly when tp = 0 and fn > 0, SOME exactly
    in the remaining case; and the negative outcome NONE exactly when
    fp = 0, SOME exactly when fp is not 0. *)
Theorem decide_outcome_rule (tp fn tn fp : Z) :
  let outcome := decide_outcome (tp, fn, tn, fp) in
  (outcome.1 = ALL ↔ fn = 0) ∧
  (outcome.1 = NONE ↔ tp = 0 ∧ fn > 0) ∧
  (outcome.1 = SOME ↔ fn ≠ 0 ∧ ¬ (tp = 0 ∧ fn > 0)) ∧
  (outcome.2 = NONE ↔ fp = 0) ∧
  (outcome.2 = SOME ↔ fp ≠ 0).
Proof.
  cbv zeta.
  rewrite decide_outcome_positive, decide_outcome_negative.
  repeat case_decide; repeat split; intros; try congruence; try lia; tauto.
Qed.

(** C2. The table gives, for each of the six outcome pairs, the tuple of
    constraint kinds of the specification, in its order; and the matrix
    (tp=0, fn=3, tn=5, fp=0) is classified (NONE, NONE) and selects
    (SPECIALISATION, REDUNDANCY). *)
Theorem outcome_to_constraints_rows :
  OUTCOME_TO_CONSTRAINTS !! (ALL, NONE) = Some [BANISH] ∧
  OUTCOME_TO_CONSTRAINTS !! (ALL, SOME) = Some [GENERALISATION] ∧
  OUTCOME_TO_CONSTRAINTS !! (SOME, NONE) = Some [SPECIALISATION] ∧
  OUTCOME_TO_CONSTRAINTS !! (SOME, SOME) = Some [SPECIALISATION; GENERALISATION] ∧
  OUTCOME_TO_CONSTRAINTS !! (NONE, NONE) = Some [SPECIALISATION; REDUNDANCY] ∧
  OUTCOME_TO_CONSTRAINTS !! (NONE, SOME)
    = Some [SPECIALISATION; REDUNDANCY; GENERALISATION] ∧
  decide_outcome (0, 3, 5, 0) = (NONE, NONE) ∧
  constraint_types (decide_outcome (0, 3, 5, 0)) = Some [SPECIALISATION; REDUNDANCY].
Proof. repeat split; vm_compute; reflexivity. Qed.

Lemma constraint_types_total (outcome : Outcome * Outcome) :
  is_Some (constraint_types outcome).
Proof. destruct outcome as [[] []]; vm_compute; eauto. Qed.

Lemma build_rules_total (settings : Settings)
    (constr : @Constrain Literal Before MinClause) (t : Tester)
    (program : Program) (before : Before) (min_clause : MinClause)
    (outcome : Outcome * Outcome) :
  is_Some (build_rules settings constr t program before min_clause outcome).
Proof.
  unfold build_rules.
  destruct (constraint_types_total outcome) as [kinds Hk].
  unfold constraint_types in Hk. rewrite Hk.
  destruct (functional_test settings);
    repeat match goal with |- context [let '(_, _) := ?e in _] => destruct e end;
    eauto.
Qed.

(** C3. For each of the nine raw pairs of outcomes, the remap of a
    negative ALL to SOME followed by the table lookup finds one tuple of
    constraint kinds (the lookup is never a KeyError), and build_rules
    returns on that pair. *)
Theorem remap_then_lookup_defined (settings : Settings)
    (constr : @Constrain Literal Before MinClause) (t : Tester)
    (program : Program) (before : Before) (min_clause : MinClause)
    (positive negative : Outcome) :
  (∃ kinds, OUTCOME_TO_CONSTRAINTS !! remap_negative (positive, negative)
            = Some kinds ∧
            ∀ kinds', OUTCOME_TO_CONSTRAINTS !! remap_negative (positive, negative)
                      = Some kinds' → kinds' = kinds) ∧
  is_Some (build_rules settings constr t program before min_clause
                       (positive, negative)).
Proof.
  split; [| apply build_rules_total].
  destruct (constraint_types_total (positive, negative)) as [kinds Hk].
  unfold constraint_types in Hk.
  exists kinds. split; [exact Hk |]. intros kinds' Hk'. congruence.
Qed.

(** C10. The negative outcome that decide_outcome computes is NONE or
    SOME and never ALL, so the remap of build_rules leaves every outcome
    of the classifier as it is: its branch is not taken. *)
Theorem negative_outcome_never_all (conf_matrix : ConfMatrix) :
  let outcome := decide_outcome conf_matrix in
  outcome.2 ≠ ALL ∧
  (outcome.2 = NONE ∨ outcome.2 = SOME) ∧
  remap_negative outcome = outcome.
Proof.
  destruct conf_matrix as [[[tp fn] tn] fp]. cbv zeta.
  assert (Hn := decide_outcome_negative tp fn tn fp).
  destruct (decide_outcome (tp, fn, tn, fp)) as [positive negative].
  simpl in *. unfold remap_negative.
  subst negative. case_decide; repeat split; try congruence; auto;
    case_decide; congruence.
Qed.

(* --------------------------------------------------------------------- *)
(* The Tester: examples are fixed, every example is counted once          *)
(* --------------------------------------------------------------------- *)

Lemma success_set_examples (t : Tester) (rules : Program) :
  same_examples t (success_set t rules).2.
Proof.
  unfold success_set, same_examples.
  destruct (seen_prog t !! _); simpl; auto.
Qed.

Lemma covered_by_examples (t : Tester) (rules : Program) :
  same_examples t (covered_by t rules).2.
Proof.
  unfold covered_by. destruct (forallb _ _); [| apply success_set_examples].
  generalize (∅ : gset Z) as covered.
  revert t. induction rules as [| rule rules IH]; intros t covered; simpl.
  - split; reflexivity.
  - destruct (success_set t [rule]) as [xs t1] eqn:E.
    destruct (IH t1 (covered ∪ xs)) as [Hp Hn].
    pose proof (success_set_examples t [rule]) as [Hp1 Hn1].
    rewrite E in Hp1, Hn1. simpl in Hp1, Hn1.
    split; congruence.
Qed.

Lemma check_redundant_literal_examples (program : Program) (t : Tester) :
  same_examples t (check_redundant_literal t program).2.
Proof.
  revert t. induction program as [| clause program IH]; intros t; simpl.
  - split; reflexivity.
  - case_decide; [apply IH |].
    match goal with |- context [check_redundant_literal ?t1 program] =>
      specialize (IH t1); destruct (check_redundant_literal t1 program) end.
    exact IH.
Qed.

Lemma count_pos_fold (covered : gset Z) (ps : list Z) (tp fn tn fp : Z) :
  ∃ tp' fn',
    foldl (count_pos covered) (tp, fn, tn, fp) ps = (tp', fn', tn, fp) ∧
    tp ≤ tp' ∧ fn ≤ fn' ∧ tp' + fn' = tp + fn + Z.of_nat (length ps).
Proof.
  revert tp fn. induction ps as [| p ps IH]; intros tp fn; simpl.
  - exists tp, fn. repeat split; lia.
  - case_decide.
    + destruct (IH (tp + 1) fn) as (tp' & fn' & -> & ? & ? & ?).
      exists tp', fn'. repeat split; lia.
    + destruct (IH tp (fn + 1)) as (tp' & fn' & -> & ? & ? & ?).
      exists tp', fn'. repeat split; lia.
Qed.

Lemma count_neg_fold (covered : gset Z) (ns : list Z) (tp fn tn fp : Z) :
  ∃ tn' fp',
    foldl (count_neg covered) (tp, fn, tn, fp) ns = (tp, fn, tn', fp') ∧
    tn ≤ tn' ∧ fp ≤ fp' ∧ tn' + fp' = tn + fp + Z.of_nat (length ns).
Proof.
  revert tn fp. induction ns as [| n ns IH]; intros tn fp; simpl.
  - exists tn, fp. repeat split; lia.
  - case_decide.
    + destruct (IH tn (fp + 1)) as (tn' & fp' & -> & ? & ? & ?).
      exists tn', fp'. repeat split; lia.
    + destruct (IH (tn + 1) fp) as (tn' & fp' & -> & ? & ? & ?).
      exists tn', fp'. repeat split; lia.
Qed.

(** test on any Tester: the four counts are non-negative and add up to
    the lengths of self.pos and self.neg; the examples stay as they are. *)
Lemma test_counts (t : Tester) (rules : Program) :
  ∃ tp fn tn fp,
    (test t rules).1 = (tp, fn, tn, fp) ∧
    0 ≤ tp ∧ 0 ≤ fn ∧ 0 ≤ tn ∧ 0 ≤ fp ∧
    tp + fn = Z.of_nat (length (pos t)) ∧
    tn + fp = Z.of_nat (length (neg t)).
Proof.
  unfold test.
  pose proof (covered_by_examples t rules) as [Hp Hn].
  destruct (covered_by t rules) as [covered t1]. simpl in *.
  destruct (count_pos_fold covered (pos t1) 0 0 0 0) as (tp & fn & -> & ? & ? & ?).
  destruct (count_neg_fold covered (neg t1) tp fn 0 0) as (tn & fp & -> & ? & ? & ?).
  exists tp, fn, tn, fp. rewrite <- Hp, <- Hn. repeat split; lia.
Qed.

Lemma test_examples (t : Tester) (rules : Program) :
  same_examples t (test t rules).2.
Proof.
  unfold test.
  pose proof (covered_by_examples t rules) as Hc.
  destruct (covered_by t rules) as [covered t1]. exact Hc.
Qed.

Lemma tester_call_examples (t : Tester) (c : TesterCall) :
  same_examples t (tester_call t c).
Proof.
  destruct c; simpl.
  - apply test_examples.
  - apply check_redundant_literal_examples.
  - split; reflexivity.
  - split; reflexivity.
Qed.

Lemma tester_calls_examples (calls : list TesterCall) (t : Tester) :
  same_examples t (foldl tester_call t calls).
Proof.
  revert t. induction calls as [| c calls IH]; intros t; simpl.
  - split; reflexivity.
  - destruct (IH (tester_call t c)) as [Hp Hn].
    destruct (tester_call_examples t c) as [Hp1 Hn1].
    split; congruence.
Qed.

Lemma length_enumerate1 {A} (xs : list A) :
  length (enumerate1 xs) = length xs.
Proof.
  unfold enumerate1. rewrite length_zip_with, length_seqZ. lia.
Qed.

Lemma new_tester_examples {Term} (pos_answers neg_answers : list Term) :
  length (pos (new_tester pos_answers neg_answers)) = length pos_answers ∧
  length (neg (new_tester pos_answers neg_answers)) = length neg_answers.
Proof.
  unfold new_tester, load_examples; simpl.
  rewrite !length_fmap, !length_enumerate1. split; reflexivity.
Qed.

(** C9. At any point of a run (a Tester built by __init__ from the
    examples and then used for any calls), test returns for every program
    four non-negative counts in which each positive example is counted
    once, tp + fn being the number of positive examples, and each negative
    example once, tn + fp being the number of negative examples. *)
Theorem test_counts_each_example_once {Term} (pos_answers neg_answers : list Term)
    (calls : list TesterCall) (rules : Program) :
  let t := foldl tester_call (new_tester pos_answers neg_answers) calls in
  let '(tp, fn, tn, fp) := (test t rules).1 in
  0 ≤ tp ∧ 0 ≤ fn ∧ 0 ≤ tn ∧ 0 ≤ fp ∧
  tp + fn = Z.of_nat (length pos_answers) ∧
  tn + fp = Z.of_nat (length neg_answers).
Proof.
  cbv zeta.
  set (t := foldl tester_call (new_tester pos_answers neg_answers) calls).
  destruct (test_counts t rules) as (tp & fn & tn & fp & -> & ? & ? & ? & ? & Hp & Hn).
  destruct (tester_calls_examples calls (new_tester pos_answers neg_answers))
    as [Ep En].
  destruct (new_tester_examples pos_answers neg_answers) as [Lp Ln].
  fold t in Ep, En. rewrite Ep, Lp in Hp. rewrite En, Ln in Hn.
  repeat split; assumption.
Qed.

(* --------------------------------------------------------------------- *)
(* ground_rules                                                           *)
(* --------------------------------------------------------------------- *)

Lemma elem_of_add_groundings (clause : Clause) (assignments : list Assignment)
    (out : gset GroundClause) (x : GroundClause) :
  x ∈ add_groundings clause out assignments ↔
  x ∈ out ∨ ∃ assignment, assignment ∈ assignments ∧
                          x = ground_clause core clause assignment.
Proof.
  unfold add_groundings. revert out.
  induction assignments as [| a assignments IH]; intros out; simpl.
  - split; [auto |]. intros [? | (a & Ha & _)]; [done |]. inversion Ha.
  - rewrite IH, elem_of_union, elem_of_singleton. split.
    + intros [[? | ->] | (b & Hb & ->)]; eauto.
      * right. exists a. split; [left | reflexivity].
      * right. exists b. split; [by right | reflexivity].
    + intros [? | (b & Hb & ->)]; [auto |].
      apply elem_of_cons in Hb as [-> | Hb]; eauto.
Qed.

(** What the for loop of ground_rules leaves in [out] and at the grounder,
    from any [out] and any grounder. *)
Lemma ground_rules_fold (max_clauses max_vars : Z) (clauses : list Clause)
    (out : gset GroundClause) (grounder : list Request) :
  let r := foldl (ground_rule max_clauses max_vars) (out, grounder) clauses in
  r.2 = grounder ++ ((λ clause, (clause, max_clauses, max_vars)) <$> clauses) ∧
  ∀ x, x ∈ r.1 ↔
       x ∈ out ∨
       ∃ head body assignment,
         (head, body) ∈ clauses ∧
         assignment ∈ find_bindings (head, body) max_clauses max_vars ∧
         x = ground_clause core
               (head, filter (λ literal, ¬ meta core literal) body) assignment.
Proof.
  cbv zeta. revert out grounder.
  induction clauses as [| [head body] clauses IH]; intros out grounder; simpl.
  - split; [by rewrite app_nil_r |].
    intros x. split; [auto |].
    intros [? | (h & b & a & Hin & _)]; [done | inversion Hin].
  - destruct (IH (add_groundings
                    (head, filter (λ literal, ¬ meta core literal) body) out
                    (find_bindings (head, body) max_clauses max_vars))
                 (grounder ++ [(head, body, max_clauses, max_vars)]))
      as [Hreq Hout].
    split.
    + rewrite Hreq, <- app_assoc. reflexivity.
    + intros x. rewrite Hout, elem_of_add_groundings. split.
      * intros [[? | (a & Ha & ->)] | (h & b & a & Hin & Ha & ->)]; [auto | |].
        -- right. exists head, body, a. split; [left | auto].
        -- right. exists h, b, a. split; [by right | auto].
      * intros [? | (h & b & a & Hin & Ha & ->)]; [auto |].
        apply elem_of_cons in Hin as [Heq | Hin].
        -- inversion Heq; subst. left. right. eauto.
        -- right. eauto 6.
Qed.

Lemma elem_of_ground_rules (grounder : list Request) (max_clauses max_vars : Z)
    (clauses : list Clause) (x : GroundClause) :
  x ∈ (ground_rules grounder max_clauses max_vars clauses).1 ↔
  ∃ head body assignment,
    (head, body) ∈ clauses ∧
    assignment ∈ find_bindings (head, body) max_clauses max_vars ∧
    x = ground_clause core
          (head, filter (λ literal, ¬ meta core literal) body) assignment.
Proof.
  unfold ground_rules.
  destruct (ground_rules_fold max_clauses max_vars clauses ∅ grounder) as [_ Hx].
  rewrite Hx. split; [| auto]. intros [Hin | ?]; [| done].
  by apply not_elem_of_empty in Hin.
Qed.

Lemma no_meta_body_filter (head : Literal) (body : list Literal) :
  no_meta_body (head, filter (λ literal, ¬ meta core literal) body) = true.
Proof.
  unfold no_meta_body; simpl. apply forallb_forall. intros l Hl.
  apply list_elem_of_In, list_elem_of_filter in Hl as [Hl _].
  destruct (meta core l); [| reflexivity]. exfalso. by apply Hl.
Qed.

(** C6, as the code has it. The meta literals are taken out of the body
    before the clause is instantiated: every ground constraint of the
    result is ground_clause of a clause whose body has no meta literal.
    The bindings, however, are requested for the clauses as they come,
    meta literals and all: the requests the grounder receives are the
    given clauses, in order. *)
Theorem ground_rules_drops_meta_after_binding (grounder : list Request)
    (max_clauses max_vars : Z) (clauses : list Clause) :
  let r := ground_rules grounder max_clauses max_vars clauses in
  r.2 = grounder ++ ((λ clause, (clause, max_clauses, max_vars)) <$> clauses) ∧
  ∀ x, x ∈ r.1 ↔
       ∃ head body assignment,
         (head, body) ∈ clauses ∧
         assignment ∈ find_bindings (head, body) max_clauses max_vars ∧
         no_meta_body (head, filter (λ literal, ¬ meta core literal) body) = true ∧
         x = ground_clause core
               (head, filter (λ literal, ¬ meta core literal) body) assignment.
Proof.
  cbv zeta. split.
  - apply (ground_rules_fold max_clauses max_vars clauses ∅ grounder).
  - intros x. rewrite elem_of_ground_rules. split.
    + intros (h & b & a & ? & ? & ?). exists h, b, a.
      repeat split; auto using no_meta_body_filter.
    + intros (h & b & a & ? & ? & _ & ?). eauto 6.
Qed.

(** C7. [out] is a set of ground clauses; Grounding.ground_clause, which
    is not under src/, is taken as a function of the clause and the
    binding. The ground constraints are collected: after lines 43-44 the
    set holds what it held and the instantiation for each binding, and the
    result of ground_rules holds exactly the instantiations of the given
    clauses. They are kept once under equality of the instantiated clause:
    two bindings leave one element in an empty set when their
    instantiations are equal and two when they differ, and one
    instantiation enlarges the set by one when it is new and not at all
    when it is there. So repeating an instantiation does not enlarge the
    set, be it one binding answered twice, a whole list of bindings gone
    through again, or every clause handed to ground_rules a second time. *)
Theorem ground_rules_idempotent (grounder : list Request)
    (max_clauses max_vars : Z) (clauses : list Clause) (clause : Clause)
    (out : gset GroundClause) (assignment assignment' : Assignment)
    (assignments : list Assignment) :
  let inst := ground_clause core clause in
  (∀ x, x ∈ add_groundings clause out assignments ↔
        x ∈ out ∨ ∃ a, a ∈ assignments ∧ x = inst a) ∧
  size (add_groundings clause ∅ [assignment; assignment'])
    = (if decide (inst assignment = inst assignment') then 1 else 2)%nat ∧
  size (add_groundings clause out [assignment])
    = (if decide (inst assignment ∈ out) then size out else S (size out)) ∧
  add_groundings clause out [assignment; assignment]
    = add_groundings clause out [assignment] ∧
  add_groundings clause (add_groundings clause out assignments) assignments
    = add_groundings clause out assignments ∧
  (∀ x, x ∈ (ground_rules grounder max_clauses max_vars clauses).1 ↔
        ∃ head body a,
          (head, body) ∈ clauses ∧
          a ∈ find_bindings (head, body) max_clauses max_vars ∧
          x = ground_clause core
                (head, filter (λ literal, ¬ meta core literal) body) a) ∧
  (ground_rules grounder max_clauses max_vars (clauses ++ clauses)).1
    = (ground_rules grounder max_clauses max_vars clauses).1.
Proof.
  cbv zeta. split_and!.
  - intros x. apply elem_of_add_groundings.
  - unfold add_groundings. cbn [foldl]. rewrite (left_id_L ∅ (∪)).
    case_decide as Heq.
    + by rewrite Heq, (idemp_L (∪)), size_singleton.
    + rewrite size_union, !size_singleton; [reflexivity |].
      apply disjoint_singleton_l. by intros ?%elem_of_singleton.
  - unfold add_groundings. cbn [foldl]. case_decide as Hin.
    + f_equal. rewrite (comm_L (∪)). apply subseteq_union_1_L.
      by apply singleton_subseteq_l.
    + rewrite size_union, size_singleton; [lia |].
      by apply disjoint_singleton_r.
  - apply set_eq; intros x. rewrite !elem_of_add_groundings. split.
    + intros [? | (a & Ha & ->)]; [auto |]. right. exists assignment.
      split; [left |].
      apply elem_of_cons in Ha as [-> | Ha]; [reflexivity |].
      apply elem_of_cons in Ha as [-> | Ha]; [reflexivity | inversion Ha].
    + intros [? | (a & Ha & ->)]; [auto |]. right. exists a.
      split; [by right | reflexivity].
  - apply set_eq; intros x. rewrite !elem_of_add_groundings. tauto.
  - intros x. apply elem_of_ground_rules.
  - apply set_eq; intros x. rewrite !elem_of_ground_rules. split.
    + intros (h & b & a & Hin & ? & ?). exists h, b, a.
      apply elem_of_app in Hin. split; [tauto | auto].
    + intros (h & b & a & Hin & ? & ?). exists h, b, a.
      split; [apply elem_of_app; auto | auto].
Qed.

(* --------------------------------------------------------------------- *)
(* check_redundant_literal and its cache                                  *)
(* --------------------------------------------------------------------- *)

Lemma redundant_literal_queries_fmap (cs : list Clause) :
  redundant_literal_queries (redundant_literal_query <$> cs) = cs.
Proof.
  unfold redundant_literal_queries.
  induction cs as [| c cs IH]; csimpl; [reflexivity | by rewrite IH].
Qed.

Lemma success_set_same_checked (t : Tester) (rules : Program) :
  same_checked t (success_set t rules).2.
Proof.
  unfold success_set, same_checked.
  destruct (seen_prog t !! _); simpl; [auto |].
  unfold redundant_literal_queries. rewrite omap_app. simpl.
  rewrite app_nil_r. auto.
Qed.

Lemma covered_by_same_checked (t : Tester) (rules : Program) :
  same_checked t (covered_by t rules).2.
Proof.
  unfold covered_by. destruct (forallb _ _); [| apply success_set_same_checked].
  generalize (∅ : gset Z) as covered.
  revert t. induction rules as [| rule rules IH]; intros t covered; simpl.
  - split; reflexivity.
  - destruct (success_set t [rule]) as [xs t1] eqn:E.
    destruct (IH t1 (covered ∪ xs)) as [Hq Hc].
    pose proof (success_set_same_checked t [rule]) as [Hq1 Hc1].
    rewrite E in Hq1, Hc1. simpl in Hq1, Hc1.
    split; congruence.
Qed.

Lemma test_same_checked (t : Tester) (rules : Program) :
  same_checked t (test t rules).2.
Proof.
  unfold test.
  pose proof (covered_by_same_checked t rules) as Hc.
  destruct (covered_by t rules) as [covered t1]. exact Hc.
Qed.

Lemma asked_same_checked (t : Tester) (q : Query) :
  (∀ c, q ≠ redundant_literal_query c) → same_checked t (asked t q).
Proof.
  intros Hq. unfold same_checked, asked; simpl.
  unfold redundant_literal_queries. rewrite omap_app. simpl.
  destruct q; try (rewrite app_nil_r; auto). by destruct (Hq clause).
Qed.

(** What one call of check_redundant_literal does, in terms of the
    clauses [checked] it sends to the engine. *)
Lemma check_redundant_literal_checked (program : Program) (t : Tester) :
  ∃ checked : list Clause,
    prolog (check_redundant_literal t program).2
      = prolog t ++ (redundant_literal_query <$> checked) ∧
    already_checked_redundant_literals (check_redundant_literal t program).2
      = already_checked_redundant_literals t
        ∪ list_to_set (clause_hash core <$> checked) ∧
    (check_redundant_literal t program).1
      = filter (λ c, redundant_literal engine c) checked ∧
    NoDup (clause_hash core <$> checked) ∧
    (∀ c, c ∈ checked →
          c ∈ program ∧
          clause_hash core c ∉ already_checked_redundant_literals t) ∧
    (∀ c, c ∈ program →
          clause_hash core c
            ∈ already_checked_redundant_literals (check_redundant_literal t program).2).
Proof.
  revert t. induction program as [| clause program IH]; intros t; simpl.
  - exists []. simpl. rewrite app_nil_r.
    split; [reflexivity |].
    split; [by rewrite (right_id_L ∅ (∪)) |].
    split; [reflexivity |].
    split; [constructor |].
    split; intros c Hc; inversion Hc.
  - case_decide as Hk.
    + destruct (IH t) as (checked & Hp & Ha & Hy & Hnd & Hin & Hall).
      exists checked. repeat split; auto.
      * right. by apply Hin.
      * by apply Hin.
      * intros c Hc. apply elem_of_cons in Hc as [-> | Hc]; [| auto].
        rewrite Ha. by apply elem_of_union_l.
    + match goal with |- context [check_redundant_literal ?t1 program] =>
        destruct (IH t1) as (checked & Hp & Ha & Hy & Hnd & Hin & Hall);
        destruct (check_redundant_literal t1 program) as [yielded t2]
      end.
      simpl in *. exists (clause :: checked).
      split; [rewrite Hp, <- app_assoc; reflexivity |].
      split; [by rewrite Ha, fmap_cons, list_to_set_cons, (assoc_L (∪)) |].
      split.
      { rewrite filter_cons, <- Hy.
        destruct (redundant_literal engine clause); reflexivity. }
      split.
      { rewrite fmap_cons. apply NoDup_cons. split; [| exact Hnd].
        intros (c & Heq & Hc)%list_elem_of_fmap.
        apply Hin in Hc as [_ Hc]. apply Hc. rewrite <- Heq.
        by apply elem_of_union_r, elem_of_singleton. }
      split.
      { intros c Hc. apply elem_of_cons in Hc as [-> | Hc].
        - split; [left | exact Hk].
        - destruct (Hin c Hc) as [? Hn]. split; [by right |].
          intros Hx. by apply Hn, elem_of_union_l. }
      intros c Hc. apply elem_of_cons in Hc as [-> | Hc]; [| auto].
      rewrite Ha. by apply elem_of_union_l, elem_of_union_r, elem_of_singleton.
Qed.

Lemma check_redundant_literal_cache (program : Program) (t : Tester) :
  cache_inv t →
  cache_inv (check_redundant_literal t program).2 ∧
  already_checked_redundant_literals t
    ⊆ already_checked_redundant_literals (check_redundant_literal t program).2.
Proof.
  intros [Hnd Hin].
  destruct (check_redundant_literal_checked program t)
    as (checked & Hp & Ha & _ & Hndc & Hc & _).
  split; [split |].
  - rewrite Hp. unfold redundant_literal_queries at 1. rewrite omap_app.
    fold (redundant_literal_queries (prolog t)).
    fold (redundant_literal_queries (redundant_literal_query <$> checked)).
    rewrite redundant_literal_queries_fmap, fmap_app.
    apply NoDup_app. split; [exact Hnd |]. split; [| exact Hndc].
    intros k (c & -> & Hq)%list_elem_of_fmap (c' & Heq & Hc')%list_elem_of_fmap.
    apply Hc in Hc' as [_ Hc']. apply Hc'. rewrite <- Heq. by apply Hin.
  - intros c. rewrite Hp. unfold redundant_literal_queries at 1. rewrite omap_app.
    fold (redundant_literal_queries (prolog t)).
    fold (redundant_literal_queries (redundant_literal_query <$> checked)).
    rewrite redundant_literal_queries_fmap, Ha.
    intros [Hq | Hq]%elem_of_app.
    + apply elem_of_union_l. by apply Hin.
    + apply elem_of_union_r, elem_of_list_to_set, list_elem_of_fmap. eauto.
  - rewrite Ha. apply union_subseteq_l.
Qed.

Lemma same_checked_cache (t t' : Tester) :
  same_checked t t' → cache_inv t →
  cache_inv t' ∧
  already_checked_redundant_literals t ⊆ already_checked_redundant_literals t'.
Proof.
  intros [Hq Ha] [Hnd Hin]. unfold cache_inv. rewrite Hq, Ha. auto.
Qed.

Lemma tester_call_cache (t : Tester) (c : TesterCall) :
  cache_inv t →
  cache_inv (tester_call t c) ∧
  already_checked_redundant_literals t
    ⊆ already_checked_redundant_literals (tester_call t c).
Proof.
  destruct c as [rules | program | program | program].
  - exact (same_checked_cache t _ (test_same_checked t rules)).
  - exact (check_redundant_literal_cache program t).
  - refine (same_checked_cache t (asked t (redundant_clause_query program)) _).
    apply asked_same_checked. discriminate.
  - refine (same_checked_cache t (asked t (non_functional_query program)) _).
    apply asked_same_checked. discriminate.
Qed.

Lemma tester_calls_cache (calls : list TesterCall) (t : Tester) :
  cache_inv t →
  cache_inv (foldl tester_call t calls) ∧
  already_checked_redundant_literals t
    ⊆ already_checked_redundant_literals (foldl tester_call t calls).
Proof.
  revert t. induction calls as [| c calls IH]; intros t Ht; simpl.
  - auto.
  - destruct (tester_call_cache t c Ht) as [Ht1 Hs1].
    destruct (IH _ Ht1) as [Ht2 Hs2]. split; [exact Ht2 | by etrans].
Qed.

Lemma new_tester_cache {Term} (pos_answers neg_answers : list Term) :
  cache_inv (new_tester pos_answers neg_answers).
Proof.
  unfold cache_inv, new_tester; simpl. split; [constructor |].
  intros c Hc. inversion Hc.
Qed.

Lemma check_redundant_literal_cached (program : Program) (t : Tester) :
  (∀ c, c ∈ program →
        clause_hash core c ∈ already_checked_redundant_literals t) →
  check_redundant_literal t program = ([], t).
Proof.
  induction program as [| clause program IH]; intros Hall; simpl.
  - reflexivity.
  - rewrite decide_True by (apply Hall; left).
    apply IH. intros c Hc. apply Hall. by right.
Qed.

Lemma elem_of_foldl_union {X} (f : X → list Clause) (l : list X)
    (init : gset Clause) (c : Clause) :
  c ∈ foldl (λ rules x, rules ∪ list_to_set (f x)) init l ↔
  c ∈ init ∨ ∃ x, x ∈ l ∧ c ∈ f x.
Proof.
  revert init. induction l as [| x l IH]; intros init; simpl.
  - split; [auto |]. intros [? | (x & Hx & _)]; [done | inversion Hx].
  - rewrite IH, elem_of_union, elem_of_list_to_set. split.
    + intros [[? | ?] | (y & Hy & ?)]; [auto | |].
      * right. exists x. split; [left | done].
      * right. exists y. split; [by right | done].
    + intros [? | (y & [-> | Hy]%elem_of_cons & ?)]; [auto | auto |].
      right. eauto.
Qed.

(** The rules of build_rules, clause by clause. *)
Lemma elem_of_build_rules (settings : Settings)
    (constr : @Constrain Literal Before MinClause) (t t' : Tester)
    (program : Program) (before : Before) (min_clause : MinClause)
    (outcome : Outcome * Outcome) (kinds : list Con) (rules : gset Clause)
    (c : Clause) :
  OUTCOME_TO_CONSTRAINTS !! remap_negative outcome = Some kinds →
  build_rules settings constr t program before min_clause outcome
    = Some (rules, t') →
  let t1 := if functional_test settings
            then (is_non_functional t program).2 else t in
  c ∈ rules ↔
    (∃ kind, kind ∈ kinds ∧
             c ∈ constraint_of constr kind program before min_clause) ∨
    (functional_test settings = true ∧ non_functional engine program = true ∧
     c ∈ generalisation_constraint constr program before min_clause) ∨
    (∃ clause, clause ∈ (check_redundant_literal t1 program).1 ∧
               c ∈ redundant_literal_constraint constr clause before min_clause) ∨
    (redundant_clause engine program = true ∧
     c ∈ generalisation_constraint constr program before min_clause).
Proof.
  clear find_bindings.
  intros Hk. unfold build_rules. rewrite Hk. cbv zeta.
  destruct (functional_test settings); unfold is_non_functional;
    cbn [fst snd];
    match goal with |- context [check_redundant_literal ?t1 program] =>
      destruct (check_redundant_literal t1 program) as [yielded t2]
    end; unfold check_redundant_clause; cbn [fst snd];
    intros [= <- <-];
    repeat match goal with
           | |- context [if ?b then _ else _] => destruct b
           end;
    rewrite ?elem_of_union, ?elem_of_foldl_union, ?elem_of_union,
            ?elem_of_foldl_union, ?elem_of_list_to_set, ?elem_of_union,
            ?elem_of_list_to_set;
    rewrite ?elem_of_foldl_union;
    split; intros Hc; intuition (try congruence; eauto);
    try match goal with H : _ ∈ ∅ |- _ =>
          by apply not_elem_of_empty in H end.
Qed.

Lemma check_redundant_literal_first (pre post : Program) (c : Clause)
    (t : Tester) :
  clause_hash core c ∉ already_checked_redundant_literals t →
  (∀ x, x ∈ pre → clause_hash core x ≠ clause_hash core c) →
  (∃ qs, prolog (check_redundant_literal t (pre ++ c :: post)).2
         = prolog t ++ qs ∧
         redundant_literal_query c ∈ qs) ∧
  (redundant_literal engine c = true →
   c ∈ (check_redundant_literal t (pre ++ c :: post)).1).
Proof.
  revert t. induction pre as [| x pre IH]; intros t Hfresh Hpre; simpl.
  - rewrite decide_False by exact Hfresh.
    match goal with |- context [check_redundant_literal ?t1 post] =>
      destruct (check_redundant_literal_checked post t1) as (checked & Hp & _);
      destruct (check_redundant_literal t1 post) as [yielded t2]
    end.
    cbn [fst snd prolog] in *. split.
    + exists (redundant_literal_query c :: (redundant_literal_query <$> checked)).
      split; [rewrite Hp, <- app_assoc; reflexivity | left].
    + intros ->. left.
  - assert (Hpre' : ∀ y, y ∈ pre → clause_hash core y ≠ clause_hash core c)
      by (intros y Hy; apply Hpre; by right).
    case_decide as Hk; [by apply IH |].
    match goal with
    | |- context [check_redundant_literal ?t1 (pre ++ c :: post)] =>
        destruct (IH t1) as [(qs & Hp & Hq) Hy]; [| exact Hpre' |];
        [| destruct (check_redundant_literal t1 (pre ++ c :: post))
             as [yielded t2] ]
    end.
    + cbn [already_checked_redundant_literals].
      rewrite elem_of_union, elem_of_singleton. intros [Hin | Heq]; [done |].
      apply (Hpre x); [left | by symmetry].
    + cbn [fst snd prolog] in *. split.
      * exists (redundant_literal_query x :: qs).
        split; [rewrite Hp, <- app_assoc; reflexivity | by right].
      * intros Hc. specialize (Hy Hc).
        destruct (redundant_literal engine x); [by right | exact Hy].
Qed.

Lemma foldl_redundant_literal_skip (k : Z)
    (constr : @Constrain Literal Before MinClause) (before : Before)
    (min_clause : MinClause) (yielded : list Clause) (init : gset Clause) :
  (∀ x, x ∈ yielded → clause_hash core x ≠ k) →
  foldl (λ rules rule,
           rules ∪ list_to_set
             (redundant_literal_constraint
                (no_redundant_literal_constraint_for k constr)
                rule before min_clause))
        init yielded
  = foldl (λ rules rule,
             rules ∪ list_to_set
               (redundant_literal_constraint constr rule before min_clause))
          init yielded.
Proof.
  revert init. induction yielded as [| y yielded IH]; intros init Hne;
    [reflexivity |].
  cbn [foldl]. rewrite <- IH by (intros x Hx; apply Hne; by right).
  cbn [redundant_literal_constraint no_redundant_literal_constraint_for].
  rewrite decide_False by (apply Hne; left). reflexivity.
Qed.

(** Once a signature is in the cache, build_rules derives what it would
    derive if the constrainer drew nothing from redundant literals of
    clauses with that signature. *)
Lemma build_rules_cached (settings : Settings)
    (constr : @Constrain Literal Before MinClause) (t : Tester)
    (program : Program) (before : Before) (min_clause : MinClause)
    (outcome : Outcome * Outcome) (k : Z) :
  k ∈ already_checked_redundant_literals t →
  build_rules settings constr t program before min_clause outcome
  = build_rules settings (no_redundant_literal_constraint_for k constr) t
                program before min_clause outcome.
Proof.
  intros Hk. unfold build_rules.
  destruct (OUTCOME_TO_CONSTRAINTS !! remap_negative outcome) as [kinds |];
    [| reflexivity].
  destruct (functional_test settings); unfold is_non_functional;
    match goal with |- context [check_redundant_literal ?t1 program] =>
      destruct (check_redundant_literal_checked program t1)
        as (checked & _ & _ & Hy & _ & Hin & _);
      destruct (check_redundant_literal t1 program) as [yielded t2]
    end; cbn [fst snd] in Hy;
    rewrite (foldl_redundant_literal_skip k constr before min_clause yielded);
    try reflexivity;
    intros x Hx Heq; rewrite Hy in Hx;
    apply list_elem_of_filter in Hx as [_ Hx];
    apply Hin in Hx as [_ Hx]; apply Hx; by rewrite Heq.
Qed.

(** What build_rules does to the Tester, as calls of its operations. *)
Lemma build_rules_calls (settings : Settings)
    (constr : @Constrain Literal Before MinClause) (t t' : Tester)
    (program : Program) (before : Before) (min_clause : MinClause)
    (outcome : Outcome * Outcome) (rules : gset Clause) :
  build_rules settings constr t program before min_clause outcome
    = Some (rules, t') →
  t' = foldl tester_call t
         ((if functional_test settings
           then [call_is_non_functional program] else [])
          ++ [call_check_redundant_literal program;
              call_check_redundant_clause program]).
Proof.
  unfold build_rules.
  destruct (OUTCOME_TO_CONSTRAINTS !! remap_negative outcome); [| discriminate].
  destruct (functional_test settings); simpl;
    match goal with |- context [check_redundant_literal ?t1 program] =>
      destruct (check_redundant_literal t1 program) as [yielded t2]
    end; simpl; by intros [= _ <-].
Qed.

Lemma elem_of_redundant_literal_queries (qs : list Query) (c : Clause) :
  c ∈ redundant_literal_queries qs ↔ redundant_literal_query c ∈ qs.
Proof.
  unfold redundant_literal_queries. rewrite list_elem_of_omap. split.
  - intros (q & Hq & Hc). destruct q; try discriminate.
    by injection Hc as ->.
  - intros Hq. eauto.
Qed.

(** C8. In a run (a Tester built by __init__ and used for any calls),
    take a program in which the clause c is the first with its signature,
    and let build_rules come to it while that signature is not in the
    cache. Then the engine is asked about c, and when it flags c every
    clause of the redundant-literal constraint of c is among the rules
    build_rules returns. After that, in any program and after any other
    calls, a check of any clause c' with the signature of c yields no such
    clause and sends the engine no query for it; over the whole run the
    engine is asked about each signature at most once; within one call a
    signature is yielded at most once; and build_rules derives what it
    would derive if the constrainer drew nothing from redundant literals
    of clauses with that signature. *)
Theorem redundant_literal_checked_once {Term} (pos_answers neg_answers : list Term)
    (calls1 calls2 : list TesterCall) (settings : Settings)
    (constr : @Constrain Literal Before MinClause)
    (pre post program2 : Program) (before : Before) (min_clause : MinClause)
    (outcome : Outcome * Outcome) (c c' : Clause) :
  clause_hash core c
    ∉ already_checked_redundant_literals
        (foldl tester_call (new_tester pos_answers neg_answers) calls1) →
  (∀ x, x ∈ pre → clause_hash core x ≠ clause_hash core c) →
  clause_hash core c' = clause_hash core c →
  let t1 := foldl tester_call (new_tester pos_answers neg_answers) calls1 in
  ∃ rules1 t1',
    build_rules settings constr t1 (pre ++ c :: post) before min_clause outcome
      = Some (rules1, t1') ∧
    redundant_literal_query c ∈ drop (length (prolog t1)) (prolog t1') ∧
    (redundant_literal engine c = true →
     ∀ x, x ∈ redundant_literal_constraint constr c before min_clause →
          x ∈ rules1) ∧
    let t2 := foldl tester_call t1' calls2 in
    let r2 := check_redundant_literal t2 program2 in
    (c' ∉ r2.1) ∧
    (redundant_literal_query c' ∉ drop (length (prolog t2)) (prolog r2.2)) ∧
    NoDup (clause_hash core <$> redundant_literal_queries (prolog r2.2)) ∧
    NoDup (clause_hash core <$> r2.1) ∧
    ((∀ x, x ∈ program2 → x ∈ pre ++ c :: post) → r2.1 = []) ∧
    ∀ settings2 before2 min_clause2 outcome2,
      build_rules settings2 constr t2 program2 before2 min_clause2 outcome2
      = build_rules settings2
          (no_redundant_literal_constraint_for (clause_hash core c) constr)
          t2 program2 before2 min_clause2 outcome2.
Proof.
  intros Hfresh Hpre Hhash t1. fold t1 in Hfresh.
  destruct (tester_calls_cache calls1 _ (new_tester_cache pos_answers neg_answers))
    as [Ht1 _]. fold t1 in Ht1.
  destruct (build_rules_total settings constr t1 (pre ++ c :: post) before
              min_clause outcome) as [[rules1 t1'] Hb].
  exists rules1, t1'. split; [exact Hb |].
  destruct (constraint_types_total outcome) as [kinds Hk].
  unfold constraint_types in Hk.
  pose proof (build_rules_calls _ _ _ _ _ _ _ _ _ Hb) as Hcalls.
  pose proof (λ x, elem_of_build_rules _ _ _ _ _ _ _ _ _ _ x Hk Hb) as Hrules.
  cbv zeta in Hrules.
  set (t1x := if functional_test settings
              then (is_non_functional t1 (pre ++ c :: post)).2 else t1) in *.
  assert (Hfx : clause_hash core c ∉ already_checked_redundant_literals t1x)
    by (unfold t1x; destruct (functional_test settings); exact Hfresh).
  destruct (check_redundant_literal_first pre post c t1x Hfx Hpre)
    as [(qs & Hp & Hq) Hy].
  assert (Hprolog : ∃ qs1 qs2, prolog t1' = prolog t1 ++ qs1 ++ qs ++ qs2).
  { rewrite Hcalls. unfold t1x in Hp.
    destruct (functional_test settings); cbn [foldl app tester_call];
      unfold check_redundant_clause; cbn [snd asked prolog]; rewrite Hp;
      unfold is_non_functional; cbn [snd asked prolog].
    - exists [non_functional_query (pre ++ c :: post)],
             [redundant_clause_query (pre ++ c :: post)].
      by rewrite <- !app_assoc.
    - exists [], [redundant_clause_query (pre ++ c :: post)].
      by rewrite <- !app_assoc. }
  destruct Hprolog as (qs1 & qs2 & Hprolog).
  assert (Hasked : redundant_literal_query c
                    ∈ drop (length (prolog t1)) (prolog t1')).
  { rewrite Hprolog, drop_app_length, !elem_of_app. auto. }
  split; [exact Hasked |]. split.
  { intros Hflag x Hx. apply Hrules. right. right. left.
    exists c. split; [by apply Hy | exact Hx]. }
  assert (Hall1 : ∀ x, x ∈ pre ++ c :: post →
            clause_hash core x ∈ already_checked_redundant_literals t1').
  { rewrite Hcalls.
    destruct (check_redundant_literal_checked (pre ++ c :: post) t1x)
      as (_ & _ & _ & _ & _ & _ & Hall).
    unfold t1x in Hall. destruct (functional_test settings); exact Hall. }
  destruct (tester_calls_cache
              ((if functional_test settings
                then [call_is_non_functional (pre ++ c :: post)] else [])
               ++ [call_check_redundant_literal (pre ++ c :: post);
                   call_check_redundant_clause (pre ++ c :: post)])
              t1 Ht1) as [Ht1' _].
  rewrite <- Hcalls in Ht1'.
  intros t2 r2.
  destruct (tester_calls_cache calls2 _ Ht1') as [Ht2 Hsub2].
  fold t2 in Ht2, Hsub2.
  assert (Hcached : clause_hash core c ∈ already_checked_redundant_literals t2).
  { apply Hsub2. destruct Ht1' as [_ Hin]. apply Hin.
    apply elem_of_redundant_literal_queries.
    rewrite Hprolog, !elem_of_app. auto. }
  destruct (check_redundant_literal_checked program2 t2)
    as (checked2 & Hp2 & _ & Hy2 & Hnd2 & Hin2 & _). fold r2 in Hp2, Hy2.
  destruct (check_redundant_literal_cache program2 t2 Ht2) as [[Hnd _] _].
  fold r2 in Hnd.
  assert (Hnot : c' ∉ checked2).
  { intros Hin. apply Hin2 in Hin as [_ Hin]. apply Hin. by rewrite Hhash. }
  split_and!.
  - rewrite Hy2. intros [_ Hin]%list_elem_of_filter. by apply Hnot.
  - rewrite Hp2, drop_app_length.
    intros (x & Heq & Hx)%list_elem_of_fmap. inversion Heq; subst x.
    by apply Hnot.
  - exact Hnd.
  - rewrite Hy2. eapply sublist_NoDup; [exact Hnd2 |].
    apply fmap_sublist, sublist_filter.
  - intros Hsub. unfold r2. rewrite check_redundant_literal_cached;
      [reflexivity |].
    intros x Hx. apply Hsub2, Hall1, Hsub, Hx.
  - intros. by apply build_rules_cached.
Qed.

(* --------------------------------------------------------------------- *)
(* The search loop                                                        *)
(* --------------------------------------------------------------------- *)

Lemma all_none_iff (tp fn tn fp : Z) :
  decide_outcome (tp, fn, tn, fp) = (ALL, NONE) ↔ fn = 0 ∧ fp = 0.
Proof.
  assert (Hp := decide_outcome_positive tp fn tn fp).
  assert (Hn := decide_outcome_negative tp fn tn fp).
  destruct (decide_outcome (tp, fn, tn, fp)) as [positive negative].
  simpl in *. subst. repeat case_decide; split; intros; try congruence;
    try tauto; try (exfalso; lia).
Qed.

Lemma build_rules_examples (settings : Settings)
    (constr : @Constrain Literal Before MinClause) (t t' : Tester)
    (program : Program) (before : Before) (min_clause : MinClause)
    (outcome : Outcome * Outcome) (rules : gset Clause) :
  build_rules settings constr t program before min_clause outcome
    = Some (rules, t') →
  same_examples t t'.
Proof.
  unfold build_rules.
  destruct (OUTCOME_TO_CONSTRAINTS !! remap_negative outcome); [| discriminate].
  destruct (functional_test settings); unfold is_non_functional;
    match goal with |- context [check_redundant_literal ?t1 program] =>
      pose proof (check_redundant_literal_examples program t1) as He;
      destruct (check_redundant_literal t1 program) as [yielded t2]
    end; simpl; intros [= _ <-]; exact He.
Qed.

(** A pass through the loop body that gets a candidate: either the
    outcome is (ALL, NONE) and the pass ends at the return, having touched
    only the tracker, the counter and the Tester's test; or it is not, and
    the pass goes on to the end of the body. *)
Lemma popper_body_candidate (settings : Settings) (r : Run) (model : Model)
    (solver' : Solver) :
  get_model clingo (solver r) = (Some model, solver') →
  let program := (generate_program clingo model).1.1 in
  let conf_matrix := (test (tester r) program).1 in
  let tester' := (test (tester r) program).2 in
  let score := calc_score conf_matrix in
  let new_best := is_new_best (best_score r) score in
  let best' := if new_best then Some score else best_score r in
  let args' := if new_best then Some (program, conf_matrix) else args r in
  (decide_outcome conf_matrix = (ALL, NONE) ∧
   popper_body settings r
   = Return {| solver := solver'; tester := tester'; grounder := grounder r;
               total_programs := total_programs r + 1;
               best_score := best'; args := args' |})
  ∨
  (decide_outcome conf_matrix ≠ (ALL, NONE) ∧
   ∃ r', popper_body settings r = Continue r' ∧
         best_score r' = best' ∧ args r' = args' ∧
         same_examples tester' (tester r')).
Proof.
  intros Hget. cbv zeta. unfold popper_body. rewrite Hget.
  destruct (generate_program clingo model) as [[program before] min_clause].
  cbn [fst snd].
  destruct (test (tester r) program) as [conf_matrix tester'].
  cbn [fst snd].
  destruct (decide (decide_outcome conf_matrix = (ALL, NONE))) as [Ho | Ho].
  - left. split; [exact Ho |].
    destruct (is_new_best (best_score r) (calc_score conf_matrix)); reflexivity.
  - right. split; [exact Ho |].
    destruct (build_rules_total settings constrainer tester' program before
                min_clause (decide_outcome conf_matrix)) as [[rules t2] Hb].
    pose proof (build_rules_examples _ _ _ _ _ _ _ _ _ Hb) as He.
    destruct (is_new_best (best_score r) (calc_score conf_matrix));
      rewrite Hb;
      destruct (ground_rules _ _ _ _) as [ground grounder'];
      eexists; (split; [reflexivity |]); simpl; auto.
Qed.

Lemma continue_after (s : Step) :
  match s with Continue _ => True | _ => False end → s = Continue (after s).
Proof. destruct s; simpl; intros []; reflexivity. Qed.

Lemma popper_body_no_candidate (settings : Settings) (r : Run) (solver' : Solver) :
  get_model clingo (solver r) = (None, solver') →
  popper_body settings r
  = Break {| solver := solver'; tester := tester r; grounder := grounder r;
             total_programs := total_programs r;
             best_score := best_score r; args := args r |}.
Proof. intros Hget. unfold popper_body. rewrite Hget. reflexivity. Qed.

(** A score that is not exact is below the number of examples. *)
Lemma inexact_score_below (t : Tester) (program : Program) :
  decide_outcome (test t program).1 ≠ (ALL, NONE) →
  calc_score (test t program).1
  < Z.of_nat (length (pos t)) + Z.of_nat (length (neg t)).
Proof.
  destruct (test_counts t program)
    as (tp & fn & tn & fp & -> & ? & ? & ? & ? & Hp & Hn).
  rewrite all_none_iff. unfold calc_score. lia.
Qed.

Lemma exact_score (t : Tester) (program : Program) :
  decide_outcome (test t program).1 = (ALL, NONE) →
  calc_score (test t program).1
  = Z.of_nat (length (pos t)) + Z.of_nat (length (neg t)).
Proof.
  destruct (test_counts t program)
    as (tp & fn & tn & fp & -> & ? & ? & ? & ? & Hp & Hn).
  rewrite all_none_iff. unfold calc_score. lia.
Qed.

Lemma reachable_run_inv (settings : Settings) (init r : Run) :
  best_score init = None → reachable settings init r → run_inv r.
Proof.
  intros Hinit Hreach.
  induction Hreach as [| r size _ IH | r r' _ IH Hbody | r r' _ IH Hbody].
  - intros best Hb. congruence.
  - exact IH.
  - destruct (get_model clingo (solver r)) as [[model |] solver'] eqn:Hget.
    + destruct (popper_body_candidate settings r model solver' Hget)
        as [[_ Hret] | [Ho (r'' & Hcont & Hbest & _ & [Hp Hn])]];
        [congruence |].
      assert (r'' = r') by congruence. subst r''.
      intros best Hb. rewrite Hp, Hn.
      destruct (test_examples (tester r) (generate_program clingo model).1.1)
        as [-> ->].
      rewrite Hbest in Hb. revert Hb.
      destruct (is_new_best _ _); intros Hb.
      * inversion Hb; subst best. by apply inexact_score_below.
      * by apply IH.
    + rewrite (popper_body_no_candidate settings r solver' Hget) in Hbody.
      discriminate Hbody.
  - destruct (get_model clingo (solver r)) as [[model |] solver'] eqn:Hget.
    + destruct (popper_body_candidate settings r model solver' Hget)
        as [[_ Hret] | [_ (r'' & Hcont & _)]]; congruence.
    + rewrite (popper_body_no_candidate settings r solver' Hget) in Hbody.
      injection Hbody as <-. exact IH.
Qed.

(** C4. The loop is entered, as lines 127-129 leave it, with any solver
    and any Tester. For a candidate tested at any state the loop can then
    be in, the pass through the loop body ends at the return exactly when
    the outcome is (ALL, NONE), and the outcome is (ALL, NONE) exactly
    when fn = 0 and fp = 0. When the pass ends at the return,
    args[PROG_KEY] holds the current program with its matrix, the solver
    is as get_model left it (no constraint was submitted), the grounder
    has received no request and the Tester only the test; and the while
    loop, hence the run, ends there in Found. *)
Theorem found_iff_all_none (settings : Settings) (solver0 : Solver)
    (tester0 : Tester) (stats : Z) (args0 : option (Program * ConfMatrix))
    (r : Run) (model : Model) (solver' : Solver) :
  reachable settings (loop_entry solver0 tester0 stats args0) r →
  get_model clingo (solver r) = (Some model, solver') →
  let program := (generate_program clingo model).1.1 in
  let conf_matrix := (test (tester r) program).1 in
  ((∃ r', popper_body settings r = Return r') ↔
   decide_outcome conf_matrix = (ALL, NONE)) ∧
  (decide_outcome conf_matrix = (ALL, NONE) ↔
   conf_matrix.1.1.2 = 0 ∧ conf_matrix.2 = 0) ∧
  (∀ r', popper_body settings r = Return r' →
         args r' = Some (program, conf_matrix) ∧
         best_score r' = Some (calc_score conf_matrix) ∧
         solver r' = solver' ∧
         grounder r' = grounder r ∧
         tester r' = (test (tester r) program).2 ∧
         total_programs r' = total_programs r + 1 ∧
         ∀ fuel, popper_while (S fuel) settings r = inr (Found r')).
Proof.
  intros Hreach Hget program conf_matrix.
  assert (Hinv : run_inv r)
    by (eapply reachable_run_inv; [| exact Hreach]; reflexivity).
  pose proof (popper_body_candidate settings r model solver' Hget) as Hbody.
  cbv zeta in Hbody. fold program in Hbody. fold conf_matrix in Hbody.
  split; [| split].
  - split.
    + intros [r' Hr']. destruct Hbody as [[Ho _] | [_ (r'' & Hc & _)]];
        [exact Ho | congruence].
    + intros Ho. destruct Hbody as [[_ Hret] | [Hno _]]; [eauto | done].
  - destruct conf_matrix as [[[tp fn] tn] fp]. apply all_none_iff.
  - intros r' Hr'.
    destruct Hbody as [[Ho Hret] | [_ (r'' & Hc & _)]]; [| congruence].
    assert (Hwhile : ∀ fuel, popper_while (S fuel) settings r = inr (Found r'))
      by (intros fuel; simpl; rewrite Hr'; reflexivity).
    assert (Hnew : is_new_best (best_score r) (calc_score conf_matrix) = true).
    { pose proof (exact_score (tester r) program Ho) as Hs.
      fold conf_matrix in Hs.
      unfold is_new_best. destruct (best_score r) as [best |] eqn:Hb;
        [| reflexivity].
      specialize (Hinv best Hb). apply Z.gtb_lt. lia. }
    rewrite Hret in Hr'. injection Hr' as <-.
    rewrite Hnew in Hwhile |- *.
    cbn [args best_score solver grounder tester total_programs].
    repeat split; try reflexivity. exact Hwhile.
Qed.

(* --------------------------------------------------------------------- *)
(* The best-program tracker                                               *)
(* --------------------------------------------------------------------- *)

Lemma score_le_refl (a : option Z) : score_le a a.
Proof. destruct a; simpl; [lia | exact I]. Qed.

Lemma score_le_trans (a b c : option Z) :
  score_le a b → score_le b c → score_le a c.
Proof. destruct a, b, c; simpl; try tauto; lia. Qed.

Lemma popper_body_best (settings : Settings) (r : Run) :
  score_le (best_score r) (best_score (after (popper_body settings r))).
Proof.
  destruct (get_model clingo (solver r)) as [[model |] solver'] eqn:Hget.
  - destruct (popper_body_candidate settings r model solver' Hget)
      as [[_ ->] | [_ (r' & -> & Hbest & _)]]; simpl; [| rewrite Hbest];
      unfold is_new_best; destruct (best_score r) as [best |]; simpl; auto;
      match goal with |- context [?s >? best] =>
        destruct (Z.gtb_spec s best); simpl; lia end.
  - rewrite (popper_body_no_candidate settings r solver' Hget). simpl.
    apply score_le_refl.
Qed.

Lemma popper_while_best (settings : Settings) (fuel : nat) (r : Run) :
  score_le (best_score r)
           (best_score (loop_final (popper_while fuel settings r))).
Proof.
  revert r. induction fuel as [| fuel IH]; intros r; simpl.
  - apply score_le_refl.
  - pose proof (popper_body_best settings r) as Hb.
    destruct (popper_body settings r) as [r' | r' | r' | r']; simpl in *;
      [| exact Hb ..].
    eapply score_le_trans; [exact Hb | apply IH].
Qed.

Lemma popper_size_best (size : Z) (r : Run) :
  best_score (popper_size size r) = best_score r.
Proof. reflexivity. Qed.

Lemma popper_for_best (settings : Settings) (fuel : nat) (sizes : list Z)
    (r : Run) :
  score_le (best_score r)
           (best_score (final (popper_for fuel settings sizes r))).
Proof.
  revert r. induction sizes as [| size sizes IH]; intros r; simpl.
  - apply score_le_refl.
  - pose proof (popper_while_best settings fuel (popper_size size r)) as Hw.
    rewrite popper_size_best in Hw.
    destruct (popper_while fuel settings (popper_size size r)) as [r' | f];
      simpl in *; [| exact Hw].
    eapply score_le_trans; [exact Hw | apply IH].
Qed.

(** C5. A pass through the loop body that tests a candidate records it,
    with its score tp + tn, when there is no best yet or the score is
    strictly greater than the best, and leaves both best_score and
    args[PROG_KEY] as they were when the score is at most the best (so on
    a tie the program found earlier stays). Hence from any state of a run
    the recorded best score never decreases, however many passes of the
    while loop or rounds of the for loop follow. *)
Theorem best_program_tracker (settings : Settings) (r : Run) :
  match get_model clingo (solver r) with
  | (None, _) => True
  | (Some model, _) =>
      let program := (generate_program clingo model).1.1 in
      let conf_matrix := (test (tester r) program).1 in
      let score := conf_matrix.1.1.1 + conf_matrix.1.2 in
      let r' := after (popper_body settings r) in
      calc_score conf_matrix = score ∧
      ((best_score r = None ∨ ∃ best, best_score r = Some best ∧ best < score) →
       best_score r' = Some score ∧ args r' = Some (program, conf_matrix)) ∧
      (∀ best, best_score r = Some best → score ≤ best →
               best_score r' = Some best ∧ args r' = args r)
  end ∧
  score_le (best_score r) (best_score (after (popper_body settings r))) ∧
  (∀ fuel, score_le (best_score r)
                    (best_score (loop_final (popper_while fuel settings r)))) ∧
  (∀ fuel sizes, score_le (best_score r)
                          (best_score (final (popper_for fuel settings sizes r)))).
Proof.
  split; [| split; [apply popper_body_best | split]];
    [| intros; apply popper_while_best | intros; apply popper_for_best].
  destruct (get_model clingo (solver r)) as [[model |] solver'] eqn:Hget;
    [| exact I].
  cbv zeta.
  set (program := (generate_program clingo model).1.1).
  set (conf_matrix := (test (tester r) program).1).
  assert (Hscore : calc_score conf_matrix
                   = conf_matrix.1.1.1 + conf_matrix.1.2)
    by (by destruct conf_matrix as [[[tp fn] tn] fp]).
  rewrite <- Hscore.
  assert (Hr' : best_score (after (popper_body settings r))
                = (if is_new_best (best_score r) (calc_score conf_matrix)
                   then Some (calc_score conf_matrix) else best_score r) ∧
                args (after (popper_body settings r))
                = (if is_new_best (best_score r) (calc_score conf_matrix)
                   then Some (program, conf_matrix) else args r)).
  { destruct (popper_body_candidate settings r model solver' Hget)
      as [[_ ->] | [_ (r' & -> & Hbest & Hargs & _)]]; simpl; auto. }
  destruct Hr' as [-> ->].
  split; [reflexivity | split].
  - intros [-> | (best & -> & Hlt)]; simpl; [auto |].
    apply Z.gtb_lt in Hlt. rewrite Hlt. auto.
  - intros best -> Hle. simpl.
    destruct (Z.gtb_spec (calc_score conf_matrix) best); [lia | auto].
Qed.

(* ===================================================================== *)
(* Further properties of the Tester                                       *)
(* ===================================================================== *)

(* --------------------------------------------------------------------- *)
(* load_examples                                                          *)
(* --------------------------------------------------------------------- *)

Lemma enumerate1_indices {A} (xs : list A) :
  (enumerate1 xs).*1 = seqZ 1 (Z.of_nat (length xs)).
Proof. unfold enumerate1. apply fst_zip. rewrite length_seqZ. lia. Qed.

(** X1. load_examples numbers the positive examples 1, ..., n and the
    negative examples -1, ..., -m in the order of the answers: an index is
    a positive example exactly when it lies in 1..n and a negative one
    exactly when it lies in -m..-1, no index occurs twice, and none is
    both. *)
Theorem load_examples_indices {Term} (pos_answers neg_answers : list Term) :
  let t : Tester := new_tester pos_answers neg_answers in
  pos t = seqZ 1 (Z.of_nat (length pos_answers)) ∧
  neg t = Z.opp <$> seqZ 1 (Z.of_nat (length neg_answers)) ∧
  (∀ i, i ∈ pos t ↔ 1 ≤ i ≤ Z.of_nat (length pos_answers)) ∧
  (∀ i, i ∈ neg t ↔ - Z.of_nat (length neg_answers) ≤ i ≤ -1) ∧
  NoDup (pos t) ∧ NoDup (neg t) ∧
  (∀ i, ¬ (i ∈ pos t ∧ i ∈ neg t)).
Proof.
  cbv zeta. unfold new_tester, load_examples. cbn [pos neg].
  assert (Hp : (λ ix : Z * Term, ix.1) <$> enumerate1 pos_answers
               = seqZ 1 (Z.of_nat (length pos_answers)))
    by apply enumerate1_indices.
  assert (Hn : (λ ix : Z * Term, - ix.1) <$> enumerate1 neg_answers
               = Z.opp <$> seqZ 1 (Z.of_nat (length neg_answers))).
  { rewrite <- enumerate1_indices, <- list_fmap_compose. reflexivity. }
  rewrite Hp, Hn.
  assert (Hip : ∀ i, i ∈ seqZ 1 (Z.of_nat (length pos_answers))
                     ↔ 1 ≤ i ≤ Z.of_nat (length pos_answers))
    by (intros i; rewrite elem_of_seqZ; lia).
  assert (Hin : ∀ i, i ∈ Z.opp <$> seqZ 1 (Z.of_nat (length neg_answers))
                     ↔ - Z.of_nat (length neg_answers) ≤ i ≤ -1).
  { intros i. rewrite list_elem_of_fmap. split.
    - intros (j & -> & Hj). apply elem_of_seqZ in Hj. lia.
    - intros Hi. exists (- i). split; [lia |]. apply elem_of_seqZ. lia. }
  split_and!; [reflexivity | reflexivity | exact Hip | exact Hin | | |].
  - apply NoDup_seqZ.
  - apply NoDup_fmap_2; [| apply NoDup_seqZ]. intros x y. lia.
  - intros i [H1 H2]. apply Hip in H1. apply Hin in H2. lia.
Qed.

(* --------------------------------------------------------------------- *)
(* The counts of test                                                     *)
(* --------------------------------------------------------------------- *)

(** Equality of tuples of integers, component by component. *)
Ltac tuple_lia := repeat (apply (f_equal2 pair)); try reflexivity; lia.

Lemma count_pos_exact (covered : gset Z) (ps : list Z) (tp fn tn fp : Z) :
  foldl (count_pos covered) (tp, fn, tn, fp) ps
  = (tp + Z.of_nat (length (filter (λ p, p ∈ covered) ps)),
     fn + Z.of_nat (length (filter (λ p, p ∉ covered) ps)), tn, fp).
Proof.
  revert tp fn. induction ps as [| p ps IH]; intros tp fn; cbn [foldl].
  - simpl. tuple_lia.
  - rewrite !filter_cons.
    change (count_pos covered (tp, fn, tn, fp) p)
      with (if decide (p ∈ covered)
            then (tp + 1, fn, tn, fp) else (tp, fn + 1, tn, fp)).
    destruct (decide (p ∈ covered)) as [Hp | Hp]; rewrite IH;
      [rewrite decide_False by tauto | rewrite decide_True by tauto];
      simpl length; tuple_lia.
Qed.

Lemma count_neg_exact (covered : gset Z) (ns : list Z) (tp fn tn fp : Z) :
  foldl (count_neg covered) (tp, fn, tn, fp) ns
  = (tp, fn, tn + Z.of_nat (length (filter (λ n, n ∉ covered) ns)),
     fp + Z.of_nat (length (filter (λ n, n ∈ covered) ns))).
Proof.
  revert tn fp. induction ns as [| n ns IH]; intros tn fp; cbn [foldl].
  - simpl. tuple_lia.
  - rewrite !filter_cons.
    change (count_neg covered (tp, fn, tn, fp) n)
      with (if decide (n ∈ covered)
            then (tp, fn, tn, fp + 1) else (tp, fn, tn + 1, fp)).
    destruct (decide (n ∈ covered)) as [Hn | Hn]; rewrite IH;
      [rewrite decide_False by tauto | rewrite decide_True by tauto];
      simpl length; tuple_lia.
Qed.

(** The matrix of test as four cardinalities over the covered set. *)
Lemma test_matrix (t : Tester) (rules : Program) :
  let covered := (covered_by t rules).1 in
  (test t rules).1
  = (Z.of_nat (length (filter (λ p, p ∈ covered) (pos t))),
     Z.of_nat (length (filter (λ p, p ∉ covered) (pos t))),
     Z.of_nat (length (filter (λ n, n ∉ covered) (neg t))),
     Z.of_nat (length (filter (λ n, n ∈ covered) (neg t)))).
Proof.
  cbv zeta. unfold test.
  destruct (covered_by_examples t rules) as [Hp Hn].
  destruct (covered_by t rules) as [covered t1]. cbn [fst snd] in *.
  rewrite count_pos_exact, count_neg_exact, Hp, Hn. reflexivity.
Qed.

Lemma length_filter_zero {A} (P : A → Prop) `{∀ x, Decision (P x)} (l : list A) :
  Z.of_nat (length (filter P l)) = 0 ↔ ∀ x, x ∈ l → ¬ P x.
Proof.
  induction l as [| x l IH].
  - split; [| reflexivity]. intros _ x Hx. inversion Hx.
  - rewrite filter_cons. destruct (decide (P x)) as [Hx | Hx].
    + split; [simpl; lia |]. intros Hall. destruct (Hall x); [left | exact Hx].
    + rewrite IH. split.
      * intros Hall y [-> | Hy]%elem_of_cons; auto.
      * intros Hall y Hy. apply Hall. by right.
Qed.

Lemma filter_none {A} (P : A → Prop) `{∀ x, Decision (P x)} (l : list A) :
  (∀ x, ¬ P x) → filter P l = [].
Proof.
  intros Hno. induction l as [| x l IH]; [reflexivity |].
  rewrite filter_cons, decide_False by apply Hno. exact IH.
Qed.

Lemma filter_all {A} (P : A → Prop) `{∀ x, Decision (P x)} (l : list A) :
  (∀ x, P x) → filter P l = l.
Proof.
  intros Hall. induction l as [| x l IH]; [reflexivity |].
  rewrite filter_cons, decide_True by apply Hall. by rewrite IH.
Qed.

(** X2. The empty program covers nothing: test of it counts every positive
    example as a false negative and every negative example as a true
    negative, asks the engine nothing and leaves the Tester as it is. *)
Theorem test_empty_program (t : Tester) :
  test t [] = ((0, Z.of_nat (length (pos t)), Z.of_nat (length (neg t)), 0), t).
Proof.
  pose proof (test_matrix t []) as Hm. cbv zeta in Hm.
  change (covered_by t []).1 with (@empty (gset Z) _) in Hm.
  rewrite !(filter_none (λ p, p ∈ @empty (gset Z) _)) in Hm
    by apply not_elem_of_empty.
  rewrite !(filter_all (λ p, p ∉ @empty (gset Z) _)) in Hm
    by apply not_elem_of_empty.
  rewrite (surjective_pairing (test t [])), Hm. reflexivity.
Qed.

(** X3. The score of a tested program lies between 0 and the number of
    examples, and it is the number of examples exactly when the outcome is
    (ALL, NONE). *)
Theorem test_score_bounds (t : Tester) (rules : Program) :
  let conf_matrix := (test t rules).1 in
  let total := Z.of_nat (length (pos t)) + Z.of_nat (length (neg t)) in
  0 ≤ calc_score conf_matrix ≤ total ∧
  (calc_score conf_matrix = total ↔ decide_outcome conf_matrix = (ALL, NONE)).
Proof.
  cbv zeta.
  destruct (test_counts t rules)
    as (tp & fn & tn & fp & -> & ? & ? & ? & ? & Hp & Hn).
  rewrite all_none_iff. unfold calc_score. lia.
Qed.

(* --------------------------------------------------------------------- *)
(* The cache seen_prog of success_set                                     *)
(* --------------------------------------------------------------------- *)

Lemma success_set_known (t : Tester) (rules : Program) :
  (success_set t rules).1 = known_success_set t rules.
Proof.
  unfold success_set, known_success_set.
  destruct (seen_prog t !! _); reflexivity.
Qed.

Lemma success_set_lookup (t : Tester) (rules : Program) :
  seen_prog (success_set t rules).2 !! (list_to_set rules : gset Clause)
  = Some (success_set t rules).1.
Proof.
  unfold success_set.
  destruct (seen_prog t !! _) eqn:E; simpl; [exact E | apply lookup_insert_eq].
Qed.

Lemma success_set_hit (t : Tester) (rules : Program) (xs : gset Z) :
  seen_prog t !! (list_to_set rules : gset Clause) = Some xs →
  success_set t rules = (xs, t).
Proof. intros E. unfold success_set. rewrite E. reflexivity. Qed.

Lemma success_set_seen (t : Tester) (rules : Program) :
  seen_prog t ⊆ seen_prog (success_set t rules).2.
Proof.
  unfold success_set.
  destruct (seen_prog t !! _) eqn:E; simpl; [reflexivity |].
  by apply insert_subseteq.
Qed.

(** The loop of lines 104-105 of Tester.test. *)
Local Abbreviation covered_fold :=
  (foldl (λ '(covered, t) rule,
            let '(xs, t) := success_set t [rule] in (covered ∪ xs, t))).

Lemma covered_fold_seen (rules : Program) (covered : gset Z) (t : Tester) :
  seen_prog t ⊆ seen_prog (covered_fold (covered, t) rules).2.
Proof.
  revert t covered. induction rules as [| rule rules IH]; intros t covered; simpl.
  - reflexivity.
  - pose proof (success_set_seen t [rule]) as Hs.
    destruct (success_set t [rule]) as [xs t1]. simpl in Hs.
    etrans; [exact Hs | apply IH].
Qed.

Lemma covered_fold_replay (rules : Program) (covered : gset Z) (t t2 : Tester) :
  seen_prog (covered_fold (covered, t) rules).2 ⊆ seen_prog t2 →
  covered_fold (covered, t2) rules = ((covered_fold (covered, t) rules).1, t2).
Proof.
  revert t covered. induction rules as [| rule rules IH]; intros t covered; simpl.
  - reflexivity.
  - pose proof (success_set_lookup t [rule]) as Hl.
    destruct (success_set t [rule]) as [xs t1]. cbn [fst snd] in Hl.
    intros Hsub.
    assert (Hhit : success_set t2 [rule] = (xs, t2)).
    { apply success_set_hit. eapply lookup_weaken; [exact Hl |].
      etrans; [apply (covered_fold_seen rules (covered ∪ xs)) | exact Hsub]. }
    rewrite Hhit. by apply IH.
Qed.

Lemma covered_by_seen (t : Tester) (rules : Program) :
  seen_prog t ⊆ seen_prog (covered_by t rules).2.
Proof.
  unfold covered_by. destruct (forallb _ _);
    [apply covered_fold_seen | apply success_set_seen].
Qed.

Lemma covered_by_replay (rules : Program) (t t2 : Tester) :
  seen_prog (covered_by t rules).2 ⊆ seen_prog t2 →
  covered_by t2 rules = ((covered_by t rules).1, t2).
Proof.
  unfold covered_by. destruct (forallb _ _).
  - apply covered_fold_replay.
  - intros Hsub. apply success_set_hit.
    eapply lookup_weaken; [apply success_set_lookup | exact Hsub].
Qed.

Lemma test_seen (t : Tester) (rules : Program) :
  seen_prog t ⊆ seen_prog (test t rules).2.
Proof.
  unfold test. pose proof (covered_by_seen t rules) as Hc.
  destruct (covered_by t rules) as [covered t1]. exact Hc.
Qed.

Lemma check_redundant_literal_seen (program : Program) (t : Tester) :
  seen_prog (check_redundant_literal t program).2 = seen_prog t.
Proof.
  revert t. induction program as [| clause program IH]; intros t; simpl.
  - reflexivity.
  - case_decide; [apply IH |].
    match goal with |- context [check_redundant_literal ?t1 program] =>
      specialize (IH t1); destruct (check_redundant_literal t1 program) end.
    exact IH.
Qed.

Lemma tester_call_seen (t : Tester) (c : TesterCall) :
  seen_prog t ⊆ seen_prog (tester_call t c).
Proof.
  destruct c as [rules | program | program | program]; simpl.
  - apply test_seen.
  - by rewrite check_redundant_literal_seen.
  - reflexivity.
  - reflexivity.
Qed.

Lemma tester_calls_seen (calls : list TesterCall) (t : Tester) :
  seen_prog t ⊆ seen_prog (foldl tester_call t calls).
Proof.
  revert t. induction calls as [| c calls IH]; intros t; simpl.
  - reflexivity.
  - etrans; [apply tester_call_seen | apply IH].
Qed.

(** X4. success_set is memoised on the set of clauses: once it has been
    called on [rules], any later call (whatever the Tester was used for in
    between) on rules with the same clauses, in any order and with any
    repetitions, returns the set returned first, asks the engine nothing
    and leaves the Tester as it is. *)
Theorem success_set_memoised (t : Tester) (rules rules' : Program)
    (calls : list TesterCall) :
  (list_to_set rules' : gset Clause) = list_to_set rules →
  let first := success_set t rules in
  let t2 := foldl tester_call first.2 calls in
  success_set t2 rules' = (first.1, t2).
Proof.
  intros Hkey first t2. apply success_set_hit. rewrite Hkey.
  eapply lookup_weaken; [apply success_set_lookup |].
  apply tester_calls_seen.
Qed.

(** X5. test gives the same matrix for the same program throughout a run:
    a second test of a program, after any other use of the Tester, returns
    the matrix of the first, asks the engine nothing and leaves the Tester
    as it is. *)
Theorem test_repeatable (t : Tester) (rules : Program)
    (calls : list TesterCall) :
  let first := test t rules in
  let t2 := foldl tester_call first.2 calls in
  test t2 rules = (first.1, t2).
Proof.
  cbv zeta.
  set (t2 := foldl tester_call (test t rules).2 calls).
  assert (Hsub : seen_prog (covered_by t rules).2 ⊆ seen_prog t2).
  { etrans; [| apply tester_calls_seen]. unfold test.
    destruct (covered_by t rules); reflexivity. }
  assert (Hex : same_examples (covered_by t rules).2 t2).
  { destruct (tester_calls_examples calls (test t rules).2) as [Hp Hn].
    fold t2 in Hp, Hn. unfold test in Hp, Hn.
    destruct (covered_by t rules); split; assumption. }
  destruct Hex as [Hp Hn].
  unfold test at 1. rewrite (covered_by_replay rules t t2 Hsub).
  unfold test. destruct (covered_by t rules) as [covered t1].
  cbn [fst snd] in *. rewrite Hp, Hn. reflexivity.
Qed.

(* --------------------------------------------------------------------- *)
(* is_totally_incomplete and is_inconsistent                              *)
(* --------------------------------------------------------------------- *)

Lemma any_in_success_set_cached (rule : Clause) (xs : list Z) (t : Tester)
    (covered : gset Z) :
  seen_prog t !! (list_to_set [rule] : gset Clause) = Some covered →
  any_in_success_set t rule xs
  = (bool_decide (Exists (λ x, x ∈ covered) xs), t).
Proof.
  intros Hc. induction xs as [| x xs IH]; cbn [any_in_success_set].
  - rewrite bool_decide_eq_false_2; [reflexivity | by intros ?%Exists_nil].
  - rewrite (success_set_hit t [rule] covered Hc). case_decide as Hx.
    + rewrite bool_decide_eq_true_2; [reflexivity | by left].
    + rewrite IH. f_equal. apply bool_decide_ext.
      rewrite Exists_cons. tauto.
Qed.

Lemma any_in_success_set_found (rule : Clause) (xs : list Z) (t : Tester) :
  (any_in_success_set t rule xs).1
  = bool_decide (Exists (λ x, x ∈ known_success_set t [rule]) xs).
Proof.
  destruct xs as [| x xs]; cbn [any_in_success_set fst].
  - rewrite bool_decide_eq_false_2; [reflexivity | by intros ?%Exists_nil].
  - pose proof (success_set_lookup t [rule]) as Hl.
    pose proof (success_set_known t [rule]) as Hk.
    destruct (success_set t [rule]) as [covered t1]. cbn [fst snd] in *.
    rewrite <- Hk. case_decide as Hx.
    + cbn [fst]. rewrite bool_decide_eq_true_2; [reflexivity | by left].
    + rewrite (any_in_success_set_cached rule xs t1 covered Hl). cbn [fst].
      apply bool_decide_ext. rewrite Exists_cons. tauto.
Qed.

Lemma covered_by_separable (t : Tester) (rule : Clause) :
  is_separable core rule = true →
  (covered_by t [rule]).1 = known_success_set t [rule].
Proof.
  intros Hsep. unfold covered_by. simpl. rewrite Hsep. simpl.
  pose proof (success_set_known t [rule]) as Hk.
  destruct (success_set t [rule]) as [xs t1]. cbn [fst snd] in *.
  rewrite <- Hk. apply (left_id_L ∅ (∪)).
Qed.

Lemma length_filter_pos {A} (P : A → Prop) `{∀ x, Decision (P x)} (l : list A) :
  0 < Z.of_nat (length (filter P l)) ↔ ∃ x, x ∈ l ∧ P x.
Proof.
  pose proof (length_filter_zero P l) as Hz.
  destruct (decide (Z.of_nat (length (filter P l)) = 0)) as [E | E].
  - split; [lia |]. intros (x & Hx & HP). exfalso.
    apply (proj1 Hz E x Hx HP).
  - split; [| lia]. intros _.
    destruct (filter P l) as [| x l'] eqn:Ef; [done |].
    exists x. apply and_comm. apply (list_elem_of_filter P l x).
    rewrite Ef. left.
Qed.

(** X6. For a separable clause, is_totally_incomplete and is_inconsistent
    agree with test of the one-clause program: the first is true exactly
    when tp = 0, the second exactly when fp > 0, that is when the negative
    outcome of the classifier is SOME. For a clause that is not separable
    both are False without any query to the engine. *)
Theorem single_clause_checks_agree_with_test (t : Tester) (rule : Clause) :
  let conf_matrix := (test t [rule]).1 in
  if is_separable core rule then
    ((is_totally_incomplete t rule).1 = true ↔ conf_matrix.1.1.1 = 0) ∧
    ((is_inconsistent t rule).1 = true ↔ 0 < conf_matrix.2) ∧
    ((is_inconsistent t rule).1 = true ↔ (decide_outcome conf_matrix).2 = SOME)
  else
    is_totally_incomplete t rule = (false, t) ∧
    is_inconsistent t rule = (false, t).
Proof.
  cbv zeta. destruct (is_separable core rule) eqn:Hsep.
  - pose proof (test_matrix t [rule]) as Hm. cbv zeta in Hm.
    rewrite (covered_by_separable t rule Hsep) in Hm. rewrite Hm.
    cbn [fst snd].
    unfold is_totally_incomplete, is_inconsistent. rewrite Hsep. cbn [negb].
    pose proof (any_in_success_set_found rule (pos t) t) as Hpos.
    pose proof (any_in_success_set_found rule (neg t) t) as Hneg.
    destruct (any_in_success_set t rule (pos t)) as [fp_ tp_].
    destruct (any_in_success_set t rule (neg t)) as [fn_ tn_].
    cbn [fst snd] in *. subst.
    rewrite decide_outcome_negative.
    rewrite length_filter_zero.
    pose proof (length_filter_pos
                  (λ n, n ∈ known_success_set t [rule]) (neg t)) as Hlp.
    split; [| split].
    + rewrite negb_true_iff, bool_decide_eq_false, Exists_exists. split.
      * intros Hno x Hx Hin. apply Hno. eauto.
      * intros Hall (x & Hx & Hin). by apply (Hall x).
    + rewrite bool_decide_eq_true, Exists_exists, Hlp. reflexivity.
    + rewrite bool_decide_eq_true, Exists_exists, <- Hlp.
      case_decide; split; intros; try congruence; lia.
  - unfold is_totally_incomplete, is_inconsistent. rewrite Hsep. split; reflexivity.
Qed.

(* --------------------------------------------------------------------- *)
(* check_redundant_literal on clauses not checked before                  *)
(* --------------------------------------------------------------------- *)

Lemma check_redundant_literal_sublist (program : Program) (t : Tester) :
  (check_redundant_literal t program).1 `sublist_of` program.
Proof.
  revert t. induction program as [| clause program IH]; intros t; simpl.
  - constructor.
  - case_decide; [by apply sublist_cons |].
    match goal with |- context [check_redundant_literal ?t1 program] =>
      specialize (IH t1); destruct (check_redundant_literal t1 program) end.
    simpl in *. destruct (redundant_literal engine clause);
      [by apply sublist_skip | by apply sublist_cons].
Qed.

(** X7. What check_redundant_literal yields is a subsequence of the
    program, in its order, of clauses the engine flags; the cache seen_prog
    and the examples are left as they are. *)
Theorem check_redundant_literal_yields (t : Tester) (program : Program) :
  let r := check_redundant_literal t program in
  r.1 `sublist_of` program ∧
  Forall (λ c, redundant_literal engine c = true) r.1 ∧
  seen_prog r.2 = seen_prog t ∧ pos r.2 = pos t ∧ neg r.2 = neg t.
Proof.
  cbv zeta. split; [apply check_redundant_literal_sublist |].
  destruct (check_redundant_literal_checked program t)
    as (checked & Hp & Ha & Hy & _ & _ & _).
  destruct (check_redundant_literal_examples program t) as [Hpos Hneg].
  split; [| split; [apply check_redundant_literal_seen |
                    split; [exact Hpos | exact Hneg]]].
  rewrite Hy. apply Forall_forall. intros c [Hc _]%list_elem_of_filter.
  by apply Is_true_true.
Qed.

(** X8. When no signature of the program is cached yet and the signatures
    of its clauses are pairwise distinct, check_redundant_literal asks the
    engine about every clause, in order, yields exactly the flagged ones
    and caches every signature. *)
Theorem check_redundant_literal_first_check (t : Tester) (program : Program) :
  NoDup (clause_hash core <$> program) →
  (∀ c, c ∈ program →
        clause_hash core c ∉ already_checked_redundant_literals t) →
  let r := check_redundant_literal t program in
  r.1 = filter (λ c, redundant_literal engine c) program ∧
  prolog r.2 = prolog t ++ (redundant_literal_query <$> program) ∧
  already_checked_redundant_literals r.2
  = already_checked_redundant_literals t
    ∪ list_to_set (clause_hash core <$> program).
Proof.
  cbv zeta.
  revert t. induction program as [| clause program IH]; intros t Hnd Hfresh.
  - simpl. rewrite app_nil_r. split; [reflexivity | split; [reflexivity |]].
    by rewrite (right_id_L ∅ (∪)).
  - simpl. rewrite fmap_cons in Hnd. apply NoDup_cons in Hnd as [Hhd Hnd].
    rewrite decide_False by (apply Hfresh; left).
    match goal with |- context [check_redundant_literal ?t1 program] =>
      destruct (IH t1 Hnd) as (Hy & Hp & Ha);
      [| destruct (check_redundant_literal t1 program) as [yielded t2] ]
    end.
    { intros c Hc. cbn [already_checked_redundant_literals].
      rewrite elem_of_union, elem_of_singleton. intros [Hin | Heq].
      - apply (Hfresh c); [by right | exact Hin].
      - apply Hhd. rewrite <- Heq. apply list_elem_of_fmap. eauto. }
    cbn [fst snd] in *. subst yielded. split; [| split].
    + rewrite filter_cons.
      destruct (redundant_literal engine clause); reflexivity.
    + rewrite Hp. cbn [prolog]. by rewrite <- app_assoc.
    + rewrite Ha. cbn [already_checked_redundant_literals].
      by rewrite ?fmap_cons, ?list_to_set_cons, (assoc_L (∪)).
Qed.

(* --------------------------------------------------------------------- *)
(* The cache does not change what test returns                            *)
(* --------------------------------------------------------------------- *)

Lemma success_set_sound (t : Tester) (rules : Program) :
  seen_prog_sound t → seen_prog_sound (success_set t rules).2.
Proof.
  intros Ht. unfold success_set.
  destruct (seen_prog t !! _) eqn:E; simpl; [exact Ht |].
  intros key xs. cbn [seen_prog]. rewrite lookup_insert.
  case_decide as Hk.
  - intros [= <-]. exists rules. split; [exact Hk | reflexivity].
  - apply Ht.
Qed.

Lemma success_set_answer (t : Tester) (rules : Program) :
  order_blind → seen_prog_sound t →
  (success_set t rules).1 = list_to_set (success_set_Xs engine rules).
Proof.
  intros Hblind Ht. rewrite success_set_known. unfold known_success_set.
  destruct (seen_prog t !! _) as [xs |] eqn:E; [| reflexivity].
  destruct (Ht _ _ E) as (rules0 & Hkey & ->). simpl. by apply Hblind.
Qed.

Lemma covered_fold_sound (rules : Program) (covered : gset Z) (t : Tester) :
  seen_prog_sound t → seen_prog_sound (covered_fold (covered, t) rules).2.
Proof.
  revert t covered. induction rules as [| rule rules IH]; intros t covered Ht;
    simpl; [exact Ht |].
  pose proof (success_set_sound t [rule] Ht) as Hs.
  destruct (success_set t [rule]) as [xs t1]. by apply IH.
Qed.

Lemma covered_fold_answer (rules : Program) (covered : gset Z) (t t' : Tester) :
  order_blind → seen_prog_sound t → seen_prog_sound t' →
  (covered_fold (covered, t) rules).1 = (covered_fold (covered, t') rules).1.
Proof.
  intros Hblind. revert t t' covered.
  induction rules as [| rule rules IH]; intros t t' covered Ht Ht'; simpl;
    [reflexivity |].
  pose proof (success_set_sound t [rule] Ht) as Hs.
  pose proof (success_set_sound t' [rule] Ht') as Hs'.
  pose proof (success_set_answer t [rule] Hblind Ht) as Ha.
  pose proof (success_set_answer t' [rule] Hblind Ht') as Ha'.
  destruct (success_set t [rule]) as [xs t1].
  destruct (success_set t' [rule]) as [xs' t1'].
  cbn [fst snd] in *. subst xs xs'. by apply IH.
Qed.

Lemma test_sound (t : Tester) (rules : Program) :
  seen_prog_sound t → seen_prog_sound (test t rules).2.
Proof.
  intros Ht. unfold test.
  assert (Hc : seen_prog_sound (covered_by t rules).2).
  { unfold covered_by. destruct (forallb _ _);
      [by apply covered_fold_sound | by apply success_set_sound]. }
  destruct (covered_by t rules) as [covered t1]. exact Hc.
Qed.

Lemma tester_call_sound (t : Tester) (c : TesterCall) :
  seen_prog_sound t → seen_prog_sound (tester_call t c).
Proof.
  intros Ht. destruct c as [rules | program | program | program]; simpl.
  - by apply test_sound.
  - unfold seen_prog_sound. by rewrite check_redundant_literal_seen.
  - exact Ht.
  - exact Ht.
Qed.

Lemma tester_calls_sound (calls : list TesterCall) (t : Tester) :
  seen_prog_sound t → seen_prog_sound (foldl tester_call t calls).
Proof.
  revert t. induction calls as [| c calls IH]; intros t Ht; simpl;
    [exact Ht |]. by apply IH, tester_call_sound.
Qed.

Lemma new_tester_sound {Term} (pos_answers neg_answers : list Term) :
  seen_prog_sound (new_tester pos_answers neg_answers).
Proof.
  intros key xs. unfold new_tester, load_examples. cbn [seen_prog].
  by rewrite lookup_empty.
Qed.

(** X9. When the engine's success set depends only on which clauses are
    asserted, the cache is invisible: at any point of a run, test returns
    for every program the matrix a Tester fresh from __init__ returns. *)
Theorem test_independent_of_history {Term} (pos_answers neg_answers : list Term)
    (calls : list TesterCall) (rules : Program) :
  order_blind →
  (test (foldl tester_call (new_tester pos_answers neg_answers) calls) rules).1
  = (test (new_tester pos_answers neg_answers) rules).1.
Proof.
  intros Hblind.
  set (t0 := new_tester pos_answers neg_answers).
  set (t := foldl tester_call t0 calls).
  assert (Ht0 : seen_prog_sound t0) by apply new_tester_sound.
  assert (Ht : seen_prog_sound t) by by apply tester_calls_sound.
  destruct (tester_calls_examples calls t0) as [Hp Hn]. fold t in Hp, Hn.
  rewrite !test_matrix. cbv zeta. rewrite Hp, Hn.
  assert (Hc : (covered_by t rules).1 = (covered_by t0 rules).1).
  { unfold covered_by. destruct (forallb _ _).
    - by apply covered_fold_answer.
    - by rewrite !success_set_answer. }
  rewrite Hc. reflexivity.
Qed.

(* ===================================================================== *)
(* Further properties of ground_rules and build_rules                     *)
(* ===================================================================== *)

(** X10. The ground constraints depend on which clauses are given, not on
    their order or repetition (the caller hands over a set): two lists
    with the same clauses give the same result set, whatever the grounder
    has received before. *)
Theorem ground_rules_order_irrelevant (grounder grounder' : list Request)
    (max_clauses max_vars : Z) (clauses clauses' : list Clause) :
  (∀ c, c ∈ clauses ↔ c ∈ clauses') →
  (ground_rules grounder max_clauses max_vars clauses).1
  = (ground_rules grounder' max_clauses max_vars clauses').1.
Proof.
  intros Hsame. apply set_eq. intros x. rewrite !elem_of_ground_rules.
  split; intros (h & b & a & Hin & Ha & ->); exists h, b, a;
    (split; [by apply Hsame | auto]).
Qed.

Lemma size_add_groundings (clause : Clause) (assignments : list Assignment)
    (out : gset GroundClause) :
  (size (add_groundings clause out assignments)
   ≤ size out + length assignments)%nat.
Proof.
  unfold add_groundings. revert out.
  induction assignments as [| a assignments IH]; intros out; simpl; [lia |].
  etrans; [apply IH |].
  rewrite size_union_alt.
  assert (size (({[ground_clause core clause a]} : gset GroundClause) ∖ out)
          ≤ 1)%nat.
  { etrans; [apply subseteq_size, subseteq_difference_l; reflexivity |].
    by rewrite size_singleton. }
  lia.
Qed.

(** X11. ground_rules gives at most one ground constraint for each binding
    answered: the size of the result is at most the number of bindings the
    grounder answers over all the clauses. With no clause it gives the
    empty set and asks the grounder nothing. *)
Theorem ground_rules_size (grounder : list Request) (max_clauses max_vars : Z)
    (clauses : list Clause) :
  (size (ground_rules grounder max_clauses max_vars clauses).1
   ≤ sum_list_with (λ clause, length (find_bindings clause max_clauses max_vars))
                   clauses)%nat ∧
  ground_rules grounder max_clauses max_vars [] = (∅, grounder).
Proof.
  split; [| reflexivity]. unfold ground_rules.
  assert (Hgen : ∀ (out : gset GroundClause) g,
    (size (foldl (ground_rule max_clauses max_vars) (out, g) clauses).1
     ≤ size out
       + sum_list_with
           (λ clause, length (find_bindings clause max_clauses max_vars))
           clauses)%nat).
  { induction clauses as [| [head body] clauses IH]; intros out g; simpl;
      [lia |].
    etrans; [apply IH |].
    pose proof (size_add_groundings
                  (head, filter (λ literal, ¬ meta core literal) body)
                  (find_bindings (head, body) max_clauses max_vars) out).
    lia. }
  specialize (Hgen ∅ grounder). rewrite size_empty in Hgen. exact Hgen.
Qed.

(** X12. build_rules on the outcome of a matrix prunes as the matrix asks:
    the rules it returns contain every generalisation constraint of the
    program when fp is not 0, every specialisation constraint when fn is
    not 0, every redundancy constraint when tp = 0 and fn > 0, and every
    banish constraint when fn = 0 and fp = 0. *)
Theorem build_rules_follows_matrix (settings : Settings)
    (constr : @Constrain Literal Before MinClause) (t : Tester)
    (program : Program) (before : Before) (min_clause : MinClause)
    (tp fn tn fp : Z) :
  ∃ rules t',
    build_rules settings constr t program before min_clause
                (decide_outcome (tp, fn, tn, fp)) = Some (rules, t') ∧
    (fp ≠ 0 →
     ∀ c, c ∈ generalisation_constraint constr program before min_clause →
          c ∈ rules) ∧
    (fn ≠ 0 →
     ∀ c, c ∈ specialisation_constraint constr program before min_clause →
          c ∈ rules) ∧
    (tp = 0 ∧ 0 < fn →
     ∀ c, c ∈ redundancy_constraint constr program before min_clause →
          c ∈ rules) ∧
    (fn = 0 ∧ fp = 0 →
     ∀ c, c ∈ banish_constraint constr program before min_clause →
          c ∈ rules).
Proof.
  destruct (build_rules_total settings constr t program before min_clause
              (decide_outcome (tp, fn, tn, fp))) as [[rules t'] Hb].
  exists rules, t'. split; [exact Hb |].
  assert (Hin : ∀ kinds kind c,
            OUTCOME_TO_CONSTRAINTS !! remap_negative (decide_outcome (tp, fn, tn, fp))
              = Some kinds →
            kind ∈ kinds →
            c ∈ constraint_of constr kind program before min_clause →
            c ∈ rules).
  { intros kinds kind c Hk Hkind Hc.
    apply (elem_of_build_rules _ _ _ _ _ _ _ _ _ _ c Hk Hb). left. eauto. }
  assert (Hp := decide_outcome_positive tp fn tn fp).
  assert (Hn := decide_outcome_negative tp fn tn fp).
  destruct (decide_outcome (tp, fn, tn, fp)) as [positive negative].
  cbn [fst snd] in Hp, Hn. subst positive negative.
  split_and!.
  - intros Hfp c Hc. rewrite (decide_False (P := fp = 0)) in Hin by exact Hfp.
    repeat case_decide;
      (eapply (Hin _ GENERALISATION); [vm_compute; reflexivity | | exact Hc]);
      repeat constructor.
  - intros Hfn c Hc. rewrite (decide_False (P := fn = 0)) in Hin by exact Hfn.
    repeat case_decide;
      (eapply (Hin _ SPECIALISATION); [vm_compute; reflexivity | | exact Hc]);
      repeat constructor.
  - intros [Htp Hfn] c Hc.
    rewrite (decide_False (P := fn = 0)), (decide_True (P := tp = 0 ∧ fn > 0))
      in Hin by lia.
    repeat case_decide;
      (eapply (Hin _ REDUNDANCY); [vm_compute; reflexivity | | exact Hc]);
      repeat constructor.
  - intros [Hfn Hfp] c Hc.
    rewrite (decide_True (P := fn = 0)), (decide_True (P := fp = 0))
      in Hin by assumption.
    eapply (Hin _ BANISH); [vm_compute; reflexivity | | exact Hc].
    repeat constructor.
Qed.

(** X13. The engine queries of build_rules, in order: non_functional only
    when functional_test is set, then redundant_literal for the clauses it
    checks, then redundant_clause once. build_rules never asks for a
    success set and leaves the cache seen_prog and the examples as they
    are. *)
Theorem build_rules_queries (settings : Settings)
    (constr : @Constrain Literal Before MinClause) (t : Tester)
    (program : Program) (before : Before) (min_clause : MinClause)
    (outcome : Outcome * Outcome) :
  match build_rules settings constr t program before min_clause outcome with
  | None => False
  | Some (rules, t') =>
      (∃ checked : list Clause,
         prolog t'
         = prolog t
           ++ (if functional_test settings
               then [non_functional_query program] else [])
           ++ (redundant_literal_query <$> checked)
           ++ [redundant_clause_query program]) ∧
      seen_prog t' = seen_prog t ∧ pos t' = pos t ∧ neg t' = neg t
  end.
Proof.
  destruct (constraint_types_total outcome) as [kinds Hk].
  unfold constraint_types in Hk. unfold build_rules. rewrite Hk.
  destruct (functional_test settings); unfold is_non_functional;
    unfold check_redundant_clause;
    match goal with |- context [check_redundant_literal ?t1 program] =>
      destruct (check_redundant_literal_checked program t1)
        as (checked & Hp & _);
      pose proof (check_redundant_literal_seen program t1) as Hs;
      destruct (check_redundant_literal_examples program t1) as [Hpos Hneg];
      destruct (check_redundant_literal t1 program) as [yielded t2]
    end; cbn [fst snd asked prolog seen_prog pos neg] in *;
    (split; [exists checked; rewrite Hp;
             rewrite <- ?app_assoc; reflexivity | auto]).
Qed.

(* ===================================================================== *)
(* print_conf_matrix and using                                            *)
(* ===================================================================== *)

Lemma string_app_nil_r (s : string) : s +:+ "" = s.
Proof.
  induction s as [| a s IH]; [reflexivity |].
  change (String a (s +:+ "") = String a s). by rewrite IH.
Qed.

(** X14. For a matrix that test returns, with num_pos and num_neg the
    numbers of examples of the Tester, print_conf_matrix marks no count
    with + : the line is the four counts and nothing else. *)
Theorem print_conf_matrix_of_test (t : Tester) (rules : Program) :
  let '(tp, fn, tn, fp) := (test t rules).1 in
  print_conf_matrix (Z.of_nat (length (pos t))) (Z.of_nat (length (neg t)))
                    (test t rules).1
  = "TP: " +:+ pretty tp +:+ ", FN: " +:+ pretty fn
    +:+ ", TN: " +:+ pretty tn +:+ ", FP: " +:+ pretty fp.
Proof.
  destruct (test_counts t rules)
    as (tp & fn & tn & fp & -> & _ & _ & _ & _ & Hp & Hn).
  unfold print_conf_matrix.
  rewrite (proj2 (Z.ltb_ge _ _)) by lia.
  rewrite (proj2 (Z.ltb_ge (tn + fp) _)) by lia.
  rewrite string_app_nil_r. reflexivity.
Qed.

Lemma size_list_to_set_le (l : list (string * nat)) :
  (size (list_to_set l : gset (string * nat)) ≤ length l)%nat.
Proof.
  induction l as [| x l IH].
  - rewrite list_to_set_nil, size_empty. reflexivity.
  - rewrite list_to_set_cons, size_union_alt, size_singleton. simpl length.
    assert (size ((list_to_set l : gset (string * nat)) ∖ {[x]})
            ≤ size (list_to_set l : gset (string * nat)))%nat
      by (apply subseteq_size, subseteq_difference_l; reflexivity).
    lia.
Qed.

Lemma using_enter_fold (predicate : Literal → string) (arity : Literal → nat)
    (to_code_ordered : Clause → string) (rules : Program)
    (sent : list Command) (current_clauses : gset (string * nat)) :
  foldl (λ '(sent, current_clauses) rule,
           let '(head, body) := rule in
           (sent ++ [assertz (to_code_ordered rule)],
            current_clauses ∪ {[ (predicate head, arity head) ]}))
        (sent, current_clauses) rules
  = (sent ++ ((λ rule, assertz (to_code_ordered rule)) <$> rules),
     current_clauses
     ∪ list_to_set ((λ rule : Clause, (predicate rule.1, arity rule.1)) <$> rules)).
Proof.
  revert sent current_clauses.
  induction rules as [| [head body] rules IH]; intros sent current_clauses; simpl.
  - by rewrite app_nil_r, (right_id_L ∅ (∪)).
  - rewrite IH, <- app_assoc, (assoc_L (∪)). reflexivity.
Qed.

(** X15. using asserts the clauses in order and, on leaving, whatever the
    body did, retracts once each pair (predicate, arity) that heads one of
    them, however many clauses share it, and nothing else: there are at
    most as many retractall as clauses, and none for no clauses. *)
Theorem using_retracts_each_head_once (predicate : Literal → string)
    (arity : Literal → nat) (to_code_ordered : Clause → string)
    (rules : Program) (body : list Command) :
  ∃ heads : list (string * nat),
    using_with predicate arity to_code_ordered rules body
    = ((λ rule, assertz (to_code_ordered rule)) <$> rules) ++ body
      ++ ((λ pa, retractall (retract_pattern pa)) <$> heads) ∧
    NoDup heads ∧
    (∀ pa, pa ∈ heads ↔
           ∃ rule, rule ∈ rules ∧ pa = (predicate rule.1, arity rule.1)) ∧
    (length heads ≤ length rules)%nat.
Proof.
  unfold using_with, using_enter. rewrite using_enter_fold.
  rewrite app_nil_l, (left_id_L ∅ (∪)).
  set (hs := (λ rule : Clause, (predicate rule.1, arity rule.1)) <$> rules).
  exists (elements (list_to_set hs : gset (string * nat))).
  split_and!.
  - reflexivity.
  - apply NoDup_elements.
  - intros pa. rewrite elem_of_elements, elem_of_list_to_set.
    unfold hs. rewrite list_elem_of_fmap. split.
    + intros (rule & -> & Hr). eauto.
    + intros (rule & Hr & ->). eauto.
  - change (length (elements (list_to_set hs : gset (string * nat))))
      with (size (list_to_set hs : gset (string * nat))).
    etrans; [apply size_list_to_set_le |]. unfold hs. by rewrite length_fmap.
Qed.

(* ===================================================================== *)
(* Further properties of the run                                          *)
(* ===================================================================== *)

Lemma popper_body_counter (settings : Settings) (r : Run) :
  total_programs (after (popper_body settings r))
  = match (get_model clingo (solver r)).1 with
    | None => total_programs r
    | Some _ => total_programs r + 1
    end.
Proof.
  unfold popper_body.
  destruct (get_model clingo (solver r)) as [[model |] solver']; cbn [fst];
    [| reflexivity].
  destruct (generate_program clingo model) as [[program before] min_clause].
  destruct (test (tester r) program) as [conf_matrix tester'].
  destruct (is_new_best _ _); case_decide; try reflexivity;
    destruct (build_rules _ _ _ _ _ _ _) as [[rules t2] |]; try reflexivity;
    destruct (ground_rules _ _ _ _); reflexivity.
Qed.

Lemma popper_body_never_raises (settings : Settings) (r r' : Run) :
  popper_body settings r ≠ Raise r'.
Proof.
  destruct (get_model clingo (solver r)) as [[model |] solver'] eqn:Hget.
  - destruct (popper_body_candidate settings r model solver' Hget)
      as [[_ ->] | [_ (r'' & -> & _)]]; discriminate.
  - rewrite (popper_body_no_candidate settings r solver' Hget). discriminate.
Qed.

Lemma popper_body_inv (settings : Settings) (stats : Z)
    (args0 : option (Program * ConfMatrix)) (t0 : Tester) (r : Run) :
  popper_inv stats args0 t0 r →
  popper_inv stats args0 t0 (after (popper_body settings r)).
Proof.
  intros ([Hp Hn] & Hstats & Hbest).
  pose proof (popper_body_counter settings r) as Hcount.
  destruct (get_model clingo (solver r)) as [[model |] solver'] eqn:Hget;
    cbn [fst] in Hcount.
  - pose proof (popper_body_candidate settings r model solver' Hget) as Hcand.
    cbv zeta in Hcand.
    destruct (test_examples (tester r) (generate_program clingo model).1.1)
      as [Hp1 Hn1].
    destruct (test_counts (tester r) (generate_program clingo model).1.1)
      as (tp & fn & tn & fp & Hm & ? & ? & ? & ? & Hsp & Hsn).
    rewrite Hm in Hcand.
    set (program := (generate_program clingo model).1.1) in *.
    assert (Hafter :
      same_examples t0 (tester (after (popper_body settings r))) ∧
      best_score (after (popper_body settings r))
      = (if is_new_best (best_score r) (calc_score (tp, fn, tn, fp))
         then Some (calc_score (tp, fn, tn, fp)) else best_score r) ∧
      args (after (popper_body settings r))
      = (if is_new_best (best_score r) (calc_score (tp, fn, tn, fp))
         then Some (program, (tp, fn, tn, fp)) else args r)).
    { destruct Hcand as [[_ Hret] | [_ (r' & Hret & Hb & Ha & [Hp2 Hn2])]];
        rewrite Hret; cbn [after tester best_score args].
      - split; [split; congruence | split; reflexivity].
      - split; [split; congruence | split; assumption]. }
    clear Hcand.
    destruct Hafter as (Hex & Hb & Ha).
    split; [exact Hex |]. split; [lia |]. rewrite Hb, Ha.
    unfold is_new_best. destruct (best_score r) as [best |] eqn:Hbr.
    + destruct Hbest as (Hlt & Hrec).
      destruct (calc_score (tp, fn, tn, fp) >? best).
      * split; [lia |]. exists program, tp, fn, tn, fp.
        rewrite <- Hp, <- Hn. unfold calc_score. repeat split; try lia.
      * split; [lia | exact Hrec].
    + split; [lia |]. exists program, tp, fn, tn, fp.
      rewrite <- Hp, <- Hn. unfold calc_score. repeat split; try lia.
  - rewrite (popper_body_no_candidate settings r solver' Hget) in *.
    cbn [after] in *. split; [split; assumption |]. split; assumption.
Qed.

Lemma reachable_popper_inv (settings : Settings) (stats : Z)
    (args0 : option (Program * ConfMatrix)) (init r : Run) :
  popper_inv stats args0 (tester init) init →
  reachable settings init r → popper_inv stats args0 (tester init) r.
Proof.
  intros Hinit Hreach.
  induction Hreach as [| r size _ IH | r r' _ IH Hbody | r r' _ IH Hbody].
  - exact Hinit.
  - exact IH.
  - pose proof (popper_body_inv settings _ _ _ _ IH) as Hi.
    by rewrite Hbody in Hi.
  - pose proof (popper_body_inv settings _ _ _ _ IH) as Hi.
    by rewrite Hbody in Hi.
Qed.

(** Where a while loop started at a reachable state leaves the run. *)
Lemma popper_while_reachable (settings : Settings) (init : Run) (fuel : nat)
    (r : Run) :
  reachable settings init r →
  match popper_while fuel settings r with
  | inl r' | inr (Unfinished r') => reachable settings init r'
  | inr (Found r') =>
      ∃ r0, reachable settings init r0 ∧ popper_body settings r0 = Return r'
  | inr (NoMoreSolutions _) | inr (Raised _) => False
  end.
Proof.
  revert r. induction fuel as [| fuel IH]; intros r Hreach; simpl.
  - exact Hreach.
  - destruct (popper_body settings r) as [r' | r' | r' | r'] eqn:Hbody.
    + apply IH. by eapply reach_continue.
    + by eapply reach_break.
    + eauto.
    + by apply popper_body_never_raises in Hbody.
Qed.

Lemma popper_for_reachable (settings : Settings) (init : Run) (fuel : nat)
    (sizes : list Z) (r : Run) :
  reachable settings init r →
  match popper_for fuel settings sizes r with
  | NoMoreSolutions r' | Unfinished r' => reachable settings init r'
  | Found r' =>
      ∃ r0, reachable settings init r0 ∧ popper_body settings r0 = Return r'
  | Raised _ => False
  end.
Proof.
  revert r. induction sizes as [| size sizes IH]; intros r Hreach; simpl.
  - exact Hreach.
  - pose proof (popper_while_reachable settings init fuel (popper_size size r)
                  (reach_size _ _ _ size Hreach)) as Hw.
    destruct (popper_while fuel settings (popper_size size r)) as [r' | f].
    + by apply IH.
    + destruct f; simpl in *; first [assumption | contradiction].
Qed.

Lemma loop_entry_inv (solver0 : Solver) (tester0 : Tester) (stats : Z)
    (args0 : option (Program * ConfMatrix)) :
  popper_inv stats args0 tester0 (loop_entry solver0 tester0 stats args0).
Proof.
  unfold popper_inv, loop_entry; cbn [tester total_programs best_score args].
  split; [split; reflexivity |]. split; [lia |]. split; reflexivity.
Qed.

(** X16. How the loop of lines 131-177 ends, entered as lines 127-129
    leave it with any solver and any Tester. It never ends in an exception
    of build_rules. When it ends at the return of line 159, args[PROG_KEY]
    holds a program with the matrix (num_pos, 0, num_neg, 0), the best
    score is the number of examples, and at least one candidate was
    counted. When it ends any other way, no program with that score was
    ever recorded. *)
Theorem popper_loop_result (fuel : nat) (settings : Settings)
    (solver0 : Solver) (tester0 : Tester) (stats : Z)
    (args0 : option (Program * ConfMatrix)) :
  let num_pos := Z.of_nat (length (pos tester0)) in
  let num_neg := Z.of_nat (length (neg tester0)) in
  match popper_loop fuel settings (loop_entry solver0 tester0 stats args0) with
  | Found r =>
      (∃ program, args r = Some (program, (num_pos, 0, num_neg, 0))) ∧
      best_score r = Some (num_pos + num_neg) ∧
      stats < total_programs r
  | NoMoreSolutions r | Unfinished r =>
      ∀ best, best_score r = Some best → best < num_pos + num_neg
  | Raised r => False
  end.
Proof.
  cbv zeta. unfold popper_loop.
  set (init := loop_entry solver0 tester0 stats args0).
  pose proof (popper_for_reachable settings init fuel
                (seqZ 1 (max_literals settings)) init
                (reach_init settings init)) as Hfor.
  assert (Hrun : ∀ r, reachable settings init r →
            run_inv r ∧ popper_inv stats args0 tester0 r).
  { intros r Hr. split.
    - eapply reachable_run_inv; [| exact Hr]. reflexivity.
    - apply (reachable_popper_inv settings stats args0 init r);
        [apply loop_entry_inv | exact Hr]. }
  assert (Hbelow : ∀ r, reachable settings init r →
            ∀ best, best_score r = Some best →
                    best < Z.of_nat (length (pos tester0))
                           + Z.of_nat (length (neg tester0))).
  { intros r Hr best Hb. destruct (Hrun r Hr) as [Hri ([Hp Hn] & _)].
    specialize (Hri best Hb). by rewrite Hp, Hn in Hri. }
  destruct (popper_for fuel settings (seqZ 1 (max_literals settings)) init)
    as [r | r | r | r]; [| by apply Hbelow | exact Hfor | by apply Hbelow].
  destruct Hfor as (r0 & Hr0 & Hret).
  destruct (Hrun r0 Hr0) as [Hri ([Hp Hn] & Hstats & _)].
  pose proof (popper_body_counter settings r0) as Hcount.
  rewrite Hret in Hcount. cbn [after] in Hcount.
  destruct (get_model clingo (solver r0)) as [[model |] solver'] eqn:Hget;
    [| rewrite (popper_body_no_candidate settings r0 solver' Hget) in Hret;
       discriminate].
  cbn [fst] in Hcount.
  destruct (popper_body_candidate settings r0 model solver' Hget)
    as [[Ho Hret'] | [_ (r'' & Hc & _)]]; [| congruence].
  rewrite Hret' in Hret. injection Hret as <-.
  cbn [args best_score total_programs] in *.
  set (program := (generate_program clingo model).1.1) in *.
  pose proof (exact_score (tester r0) program Ho) as Hs.
  destruct (test_counts (tester r0) program)
    as (tp & fn & tn & fp & Hm & ? & ? & ? & ? & Hsp & Hsn).
  rewrite Hm in *. apply all_none_iff in Ho as [-> ->].
  assert (Hnew : is_new_best (best_score r0) (calc_score (tp, 0, tn, 0)) = true).
  { unfold is_new_best. destruct (best_score r0) as [best |] eqn:Hb;
      [| reflexivity].
    specialize (Hri best Hb). apply Z.gtb_lt. lia. }
  rewrite Hnew. rewrite Hp in Hsp. rewrite Hn in Hsn.
  assert (tp = Z.of_nat (length (pos tester0))) as -> by lia.
  assert (tn = Z.of_nat (length (neg tester0))) as -> by lia.
  split; [eexists; reflexivity |]. split; [reflexivity | lia].
Qed.

(** X17. What the loop of lines 131-177 leaves for the caller, however it
    ends, entered as lines 127-129 leave it with any solver and any
    Tester: while no candidate was counted, best_score is None and
    args[PROG_KEY] is as it was given; once one was counted,
    args[PROG_KEY] holds a program and a matrix over all the examples
    whose score tp + tn is best_score. *)
Theorem popper_loop_record (fuel : nat) (settings : Settings)
    (solver0 : Solver) (tester0 : Tester) (stats : Z)
    (args0 : option (Program * ConfMatrix)) :
  let r := final (popper_loop fuel settings
                    (loop_entry solver0 tester0 stats args0)) in
  stats ≤ total_programs r ∧
  (total_programs r = stats ↔ best_score r = None) ∧
  (best_score r = None → args r = args0) ∧
  (∀ best, best_score r = Some best →
     ∃ program tp fn tn fp,
       args r = Some (program, (tp, fn, tn, fp)) ∧
       tp + tn = best ∧
       0 ≤ tp ∧ 0 ≤ fn ∧ 0 ≤ tn ∧ 0 ≤ fp ∧
       tp + fn = Z.of_nat (length (pos tester0)) ∧
       tn + fp = Z.of_nat (length (neg tester0))).
Proof.
  cbv zeta. unfold popper_loop.
  set (init := loop_entry solver0 tester0 stats args0).
  assert (Hinv : popper_inv stats args0 tester0
                   (final (popper_for fuel settings
                             (seqZ 1 (max_literals settings)) init))).
  { pose proof (popper_for_reachable settings init fuel
                  (seqZ 1 (max_literals settings)) init
                  (reach_init settings init)) as Hfor.
    assert (Hr : ∀ r, reachable settings init r →
              popper_inv stats args0 tester0 r)
      by (intros r Hr;
          apply (reachable_popper_inv settings stats args0 init r);
          [apply loop_entry_inv | exact Hr]).
    destruct (popper_for fuel settings (seqZ 1 (max_literals settings)) init)
      as [r | r | r | r]; cbn [final]; [| by apply Hr | done | by apply Hr].
    destruct Hfor as (r0 & Hr0 & Hret).
    pose proof (popper_body_inv settings _ _ _ _ (Hr r0 Hr0)) as Hi.
    by rewrite Hret in Hi. }
  destruct Hinv as (_ & Hstats & Hbest).
  destruct (best_score _) as [best |].
  - destruct Hbest as (Hlt & Hrec).
    split_and!; [exact Hstats | split; [lia | discriminate] | discriminate |].
    intros b [= <-]. exact Hrec.
  - destruct Hbest as (Heq & Hargs).
    split_and!; [exact Hstats | split; auto | auto | discriminate].
Qed.

(** X18. popper as it is written does not reach its loop: line 126 reads
    tester.num_pos, a name that neither Tester.__init__ nor load_examples
    assigns and no method has, so for every setting, counter, entry of
    args and set of examples, and however many passes the loop would be
    allowed, the call ends in AttributeError for num_pos. The example
    indices themselves are there, under pos and neg. *)
Theorem popper_stops_at_set_up {Term} (fuel : nat) (settings : Settings)
    (stats : Z) (args0 : option (Program * ConfMatrix))
    (pos_answers neg_answers : list Term) :
  popper fuel settings stats args0 pos_answers neg_answers
  = inr (AttributeError "Tester" "num_pos") ∧
  hasattr_Tester "num_neg" = false ∧
  hasattr_Tester "pos" = true ∧ hasattr_Tester "neg" = true.
Proof. split_and!; reflexivity. Qed.

(** X19. With no example at all every matrix is (0, 0, 0, 0) and its
    outcome (ALL, NONE): entered with a Tester that has no example, the
    loop of lines 131-177 ends at the first candidate the solver offers,
    which is recorded as exact. *)
Theorem popper_loop_without_examples (fuel : nat) (settings : Settings)
    (solver0 : Solver) (tester0 : Tester) (stats : Z)
    (args0 : option (Program * ConfMatrix)) (model : Model)
    (solver' : Solver) :
  pos tester0 = [] → neg tester0 = [] →
  1 ≤ max_literals settings →
  get_model clingo (update_number_of_literals clingo 1 solver0)
  = (Some model, solver') →
  ∃ r, popper_loop (S fuel) settings (loop_entry solver0 tester0 stats args0)
       = Found r ∧
       args r = Some ((generate_program clingo model).1.1, (0, 0, 0, 0)) ∧
       best_score r = Some 0 ∧
       total_programs r = stats + 1 ∧
       solver r = solver' ∧ grounder r = [].
Proof.
  intros Hpos Hneg Hmax Hget. unfold popper_loop. rewrite seqZ_cons by lia.
  set (init := loop_entry solver0 tester0 stats args0).
  cbn [popper_for popper_while].
  assert (Hget' : get_model clingo (solver (popper_size 1 init))
                  = (Some model, solver')) by exact Hget.
  pose proof (popper_body_candidate settings (popper_size 1 init) model solver'
                Hget') as Hcand.
  cbv zeta in Hcand.
  destruct (test_counts (tester (popper_size 1 init))
              (generate_program clingo model).1.1)
    as (tp & fn & tn & fp & Hm & ? & ? & ? & ? & Hsp & Hsn).
  rewrite Hm in Hcand.
  change (tester (popper_size 1 init)) with tester0 in Hsp, Hsn.
  rewrite Hpos in Hsp. rewrite Hneg in Hsn. cbn [length] in Hsp, Hsn.
  assert (tp = 0) as -> by lia. assert (fn = 0) as -> by lia.
  assert (tn = 0) as -> by lia. assert (fp = 0) as -> by lia.
  destruct Hcand as [[_ Hret] | [Hno _]];
    [| exfalso; apply Hno; by apply all_none_iff].
  rewrite Hret. eexists. split; [reflexivity |].
  cbn [args best_score total_programs solver grounder].
  repeat split; reflexivity.
Qed.

(* --------------------------------------------------------------------- *)
(* The engine is asked each thing once in a run                           *)
(* --------------------------------------------------------------------- *)

Lemma success_set_seen_inv (t : Tester) (rules : Program) :
  seen_inv t → seen_inv (success_set t rules).2.
Proof.
  intros [Hnd Hin]. unfold success_set.
  destruct (seen_prog t !! _) eqn:E; simpl; [by split |].
  unfold seen_inv; cbn [prolog seen_prog].
  unfold success_set_queries. rewrite omap_app. simpl.
  fold (success_set_queries (prolog t)). split.
  - rewrite fmap_app. apply NoDup_app. split; [exact Hnd |]. split.
    + intros key (rules0 & -> & Hr)%list_elem_of_fmap Hk.
      apply list_elem_of_singleton in Hk.
      destruct (Hin rules0 Hr) as [xs Hxs]. rewrite Hk in Hxs. congruence.
    + simpl. apply NoDup_singleton.
  - intros rules0 [Hr | Hr]%elem_of_app.
    + destruct (Hin rules0 Hr) as [xs Hxs].
      rewrite lookup_insert. case_decide; eauto.
    + apply list_elem_of_singleton in Hr as ->.
      rewrite lookup_insert_eq. eauto.
Qed.

Lemma covered_by_seen_inv (t : Tester) (rules : Program) :
  seen_inv t → seen_inv (covered_by t rules).2.
Proof.
  unfold covered_by. destruct (forallb _ _); [| apply success_set_seen_inv].
  generalize (∅ : gset Z) as covered.
  revert t. induction rules as [| rule rules IH]; intros t covered Ht; simpl.
  - exact Ht.
  - pose proof (success_set_seen_inv t [rule] Ht) as Hs.
    destruct (success_set t [rule]) as [xs t1]. by apply IH.
Qed.

Lemma check_redundant_literal_success_queries (program : Program) (t : Tester) :
  success_set_queries (prolog (check_redundant_literal t program).2)
  = success_set_queries (prolog t).
Proof.
  destruct (check_redundant_literal_checked program t) as (checked & -> & _).
  unfold success_set_queries. rewrite omap_app.
  assert (Hno : omap (λ q : Query,
                        match q with
                        | success_set_query rules => Some rules
                        | _ => None
                        end) (redundant_literal_query <$> checked) = []).
  { induction checked as [| c checked IH]; [reflexivity |]. exact IH. }
  rewrite Hno. apply app_nil_r.
Qed.

Lemma tester_call_seen_inv (t : Tester) (c : TesterCall) :
  seen_inv t → seen_inv (tester_call t c).
Proof.
  intros Ht. destruct c as [rules | program | program | program]; simpl.
  - unfold test. pose proof (covered_by_seen_inv t rules Ht) as Hc.
    destruct (covered_by t rules) as [covered t1]. exact Hc.
  - unfold seen_inv.
    rewrite check_redundant_literal_success_queries,
            check_redundant_literal_seen. exact Ht.
  - unfold seen_inv, asked; cbn [prolog seen_prog].
    unfold success_set_queries. rewrite omap_app. simpl.
    rewrite app_nil_r. exact Ht.
  - unfold seen_inv, asked; cbn [prolog seen_prog].
    unfold success_set_queries. rewrite omap_app. simpl.
    rewrite app_nil_r. exact Ht.
Qed.

Lemma tester_calls_seen_inv (calls : list TesterCall) (t : Tester) :
  seen_inv t → seen_inv (foldl tester_call t calls).
Proof.
  revert t. induction calls as [| c calls IH]; intros t Ht; simpl;
    [exact Ht |]. by apply IH, tester_call_seen_inv.
Qed.

Lemma new_tester_seen_inv {Term} (pos_answers neg_answers : list Term) :
  seen_inv (new_tester pos_answers neg_answers).
Proof.
  unfold seen_inv, new_tester, load_examples; cbn [prolog seen_prog].
  split; [constructor |]. intros rules Hr. inversion Hr.
Qed.

Lemma popper_body_calls (settings : Settings) (r : Run) :
  ∃ calls, tester (after (popper_body settings r))
           = foldl tester_call (tester r) calls.
Proof.
  unfold popper_body.
  destruct (get_model clingo (solver r)) as [[model |] solver'];
    [| by exists []].
  destruct (generate_program clingo model) as [[program before] min_clause].
  destruct (test (tester r) program) as [conf_matrix tester'] eqn:Ht.
  assert (Ht' : tester' = foldl tester_call (tester r) [call_test program])
    by (simpl; by rewrite Ht).
  cbv zeta.
  destruct (is_new_best _ _); case_decide;
    try (exists [call_test program]; exact Ht');
    (destruct (build_rules _ _ _ _ _ _ _) as [[rules t2] |] eqn:Hb;
     [| exists [call_test program]; exact Ht']);
    apply build_rules_calls in Hb;
    destruct (ground_rules _ _ _ _);
    eexists (call_test program :: _); cbn [after tester];
    rewrite Hb, Ht'; reflexivity.
Qed.

Lemma popper_while_calls (settings : Settings) (fuel : nat) (r : Run) :
  ∃ calls, tester (loop_final (popper_while fuel settings r))
           = foldl tester_call (tester r) calls.
Proof.
  revert r. induction fuel as [| fuel IH]; intros r; simpl; [by exists [] |].
  destruct (popper_body_calls settings r) as [calls Hc].
  destruct (popper_body settings r) as [r' | r' | r' | r']; cbn [after] in Hc;
    try (exists calls; exact Hc).
  destruct (IH r') as [calls' Hc']. exists (calls ++ calls').
  by rewrite foldl_app, <- Hc.
Qed.

Lemma popper_for_calls (settings : Settings) (fuel : nat) (sizes : list Z)
    (r : Run) :
  ∃ calls, tester (final (popper_for fuel settings sizes r))
           = foldl tester_call (tester r) calls.
Proof.
  revert r. induction sizes as [| size sizes IH]; intros r; simpl;
    [by exists [] |].
  destruct (popper_while_calls settings fuel (popper_size size r))
    as [calls Hc].
  destruct (popper_while fuel settings (popper_size size r)) as [r' | f];
    cbn [loop_final] in Hc; [| exists calls; exact Hc].
  destruct (IH r') as [calls' Hc']. exists (calls ++ calls').
  rewrite foldl_app. change (tester r) with (tester (popper_size size r)).
  by rewrite <- Hc.
Qed.

(** X20. Over the whole loop of lines 131-177 the engine is asked each
    thing once: entered with any solver and the Tester as __init__ leaves
    it, and however the loop ends, the Tester it leaves was reached from
    the new one by calls of its operations, no two success_set queries
    were made for the same set of clauses, and no two redundant_literal
    queries for the same clause signature. *)
Theorem popper_loop_asks_once {Term} (fuel : nat) (settings : Settings)
    (solver0 : Solver) (stats : Z) (args0 : option (Program * ConfMatrix))
    (pos_answers neg_answers : list Term) :
  let t := tester (final (popper_loop fuel settings
                            (loop_entry solver0
                               (new_tester pos_answers neg_answers)
                               stats args0))) in
  (∃ calls, t = foldl tester_call (new_tester pos_answers neg_answers) calls) ∧
  NoDup ((λ rules, list_to_set rules : gset Clause)
           <$> success_set_queries (prolog t)) ∧
  NoDup (clause_hash core <$> redundant_literal_queries (prolog t)).
Proof.
  cbv zeta. unfold popper_loop.
  destruct (popper_for_calls settings fuel (seqZ 1 (max_literals settings))
              (loop_entry solver0 (new_tester pos_answers neg_answers)
                 stats args0))
    as [calls Hc].
  cbn [loop_entry tester] in Hc.
  rewrite Hc. split; [eauto |]. split.
  - apply (tester_calls_seen_inv calls _
             (new_tester_seen_inv pos_answers neg_answers)).
  - apply (tester_calls_cache calls _
             (new_tester_cache pos_answers neg_answers)).
Qed.

End Popper.

(* ===================================================================== *)
(* The properties on the small learning problem                           *)
(* ===================================================================== *)

(** Scenarios A and C of the specification. *)
Example scenario_A :
  decide_outcome (5, 0, 5, 0) = (ALL, NONE) ∧
  constraint_types (ALL, NONE) = Some [BANISH] ∧
  calc_score (5, 0, 5, 0) = 10.
Proof. repeat split; vm_compute; reflexivity. Qed.

Example scenario_C :
  decide_outcome (2, 1, 3, 2) = (SOME, SOME) ∧
  constraint_types (SOME, SOME) = Some [SPECIALISATION; GENERALISATION].
Proof. repeat split; vm_compute; reflexivity. Qed.

(** The loop on the problem, entered with the solver and the Tester as
    they are constructed: the first candidate is inexact, the second is
    exact and ends the loop with itself recorded. *)
Example toy_run :
  match popper_loop Toy.core Toy.engine Toy.clingo Toy.find_bindings
                    Toy.constrainer 5 Toy.settings
                    (loop_entry (new_solver Toy.clingo Toy.settings)
                                (new_tester Toy.pos_answers Toy.neg_answers)
                                0 None) with
  | Found r =>
      args r = Some (Toy.via_p, (2, 0, 1, 0)) ∧
      best_score r = Some 3 ∧
      total_programs r = 2
  | _ => False
  end.
Proof. vm_compute. repeat split; reflexivity. Qed.

(** C6, as the specification words it, fails: the clause for which
    ground_rules requests bindings is the clause as given. For a
    constraint with a meta literal in its body, the request the grounder
    receives has that meta literal. *)
Lemma binding_request_keeps_meta_literals :
  ¬ Forall (λ request : (Toy.Literal * list Toy.Literal) * Z * Z,
              no_meta_body Toy.core request.1.1 = true)
           (ground_rules Toy.core Toy.find_bindings [] 2 3 [Toy.a_constraint]).2.
Proof.
  vm_compute. intros Hall. inversion Hall as [| ? ? Hhead _]. discriminate Hhead.
Qed.

(** The ground constraints of that request: the meta literal is gone, and
    the binding 0, answered twice, gives one ground constraint. *)
Example toy_ground_rules :
  let out := (ground_rules Toy.core Toy.find_bindings [] 2 3 [Toy.a_constraint]).1 in
  size out = 2%nat ∧
  ((Toy.head_false, [Toy.included_clause; Toy.clause_size]), 0) ∈ out ∧
  ((Toy.head_false, [Toy.included_clause; Toy.clause_size]), 1) ∈ out.
Proof.
  cbv zeta. split; [vm_compute; reflexivity |].
  split; apply (bool_decide_eq_true_1 _); vm_compute; reflexivity.
Qed.

(** C4 on the small learning problem, at the second candidate. *)
Lemma found_iff_all_none_witness :
  let init := loop_entry (new_solver Toy.clingo Toy.settings)
                         (new_tester Toy.pos_answers Toy.neg_answers)
                         0 None in
  let body := popper_body Toy.core Toy.engine Toy.clingo Toy.find_bindings
                          Toy.constrainer Toy.settings in
  let r := after (body init) in
  let conf_matrix := (test Toy.core Toy.engine (tester r) Toy.via_p).1 in
  reachable Toy.core Toy.engine Toy.clingo Toy.find_bindings Toy.constrainer
            Toy.settings init r ∧
  get_model Toy.clingo (solver r) = (Some Toy.via_p, []) ∧
  ((∃ r', body r = Return r') ↔ decide_outcome conf_matrix = (ALL, NONE)) ∧
  (decide_outcome conf_matrix = (ALL, NONE) ↔
   conf_matrix.1.1.2 = 0 ∧ conf_matrix.2 = 0) ∧
  (∀ r', body r = Return r' →
         args r' = Some (Toy.via_p, conf_matrix) ∧
         best_score r' = Some (calc_score conf_matrix) ∧
         solver r' = [] ∧
         grounder r' = grounder r ∧
         tester r' = (test Toy.core Toy.engine (tester r) Toy.via_p).2 ∧
         total_programs r' = total_programs r + 1 ∧
         ∀ fuel, popper_while Toy.core Toy.engine Toy.clingo Toy.find_bindings
                              Toy.constrainer (S fuel) Toy.settings r
                 = inr (Found r')).
Proof.
  cbv zeta.
  assert (Hreach :
    reachable Toy.core Toy.engine Toy.clingo Toy.find_bindings Toy.constrainer
      Toy.settings
      (loop_entry (new_solver Toy.clingo Toy.settings)
                  (new_tester Toy.pos_answers Toy.neg_answers) 0 None)
      (after (popper_body Toy.core Toy.engine Toy.clingo Toy.find_bindings
                Toy.constrainer Toy.settings
                (loop_entry (new_solver Toy.clingo Toy.settings)
                            (new_tester Toy.pos_answers Toy.neg_answers)
                            0 None)))).
  { eapply reach_continue; [apply reach_init |].
    apply continue_after. vm_compute. exact I. }
  split; [exact Hreach |]. split; [vm_compute; reflexivity |].
  apply (found_iff_all_none Toy.core Toy.engine Toy.clingo Toy.find_bindings
           Toy.constrainer Toy.settings
           (new_solver Toy.clingo Toy.settings)
           (new_tester Toy.pos_answers Toy.neg_answers) 0 None
           _ Toy.via_p [] Hreach).
  vm_compute. reflexivity.
Defined.

(** C8 on the small learning problem: the clause with two body literals
    is flagged on its first check, its constraint is among the rules of
    build_rules, and it is not asked about or yielded again. *)
Lemma redundant_literal_checked_once_witness :
  let t1 := foldl (tester_call Toy.core Toy.engine)
                  (new_tester Toy.pos_answers Toy.neg_answers)
                  [call_test Toy.via_q] in
  (clause_hash Toy.core Toy.via_pq ∉ already_checked_redundant_literals t1) ∧
  (∀ x, x ∈ @nil (Toy.Literal * list Toy.Literal) →
        clause_hash Toy.core x ≠ clause_hash Toy.core Toy.via_pq) ∧
  redundant_literal Toy.engine Toy.via_pq = true ∧
  ∃ rules1 t1',
    build_rules Toy.core Toy.engine Toy.settings Toy.constrainer t1
                ([] ++ [Toy.via_pq]) () () (SOME, SOME) = Some (rules1, t1') ∧
    redundant_literal_query Toy.via_pq
      ∈ drop (length (prolog t1)) (prolog t1') ∧
    (Toy.head_false, [Toy.body_p; Toy.body_q]) ∈ rules1 ∧
    let t2 := foldl (tester_call Toy.core Toy.engine) t1'
                    [call_check_redundant_clause [Toy.via_pq]] in
    let r2 := check_redundant_literal Toy.core Toy.engine t2
                                      (Toy.via_p ++ [Toy.via_pq]) in
    (Toy.via_pq ∉ r2.1) ∧
    (redundant_literal_query Toy.via_pq
       ∉ drop (length (prolog t2)) (prolog r2.2)) ∧
    NoDup (clause_hash Toy.core <$> redundant_literal_queries (prolog r2.2)).
Proof.
  cbv zeta.
  assert (Hfresh :
    clause_hash Toy.core Toy.via_pq
      ∉ already_checked_redundant_literals
          (foldl (tester_call Toy.core Toy.engine)
                 (new_tester Toy.pos_answers Toy.neg_answers)
                 [call_test Toy.via_q])).
  { apply (bool_decide_unpack _). vm_compute. exact I. }
  assert (Hpre : ∀ x, x ∈ @nil (Toy.Literal * list Toy.Literal) →
            clause_hash Toy.core x ≠ clause_hash Toy.core Toy.via_pq)
    by (intros x Hx; inversion Hx).
  split; [exact Hfresh |]. split; [exact Hpre |]. split; [reflexivity |].
  destruct (redundant_literal_checked_once Toy.core Toy.engine
              Toy.pos_answers Toy.neg_answers
              [call_test Toy.via_q] [call_check_redundant_clause [Toy.via_pq]]
              Toy.settings Toy.constrainer [] [] (Toy.via_p ++ [Toy.via_pq])
              () () (SOME, SOME) Toy.via_pq Toy.via_pq Hfresh Hpre eq_refl)
    as (rules1 & t1' & Hb & Hq & Hflag & H1 & H2 & H3 & _).
  exists rules1, t1'. split_and!; try assumption.
  apply Hflag; [reflexivity | left].
Defined.

(** X4 on the small learning problem: via_p given twice is looked up
    under the key of via_p. *)
Lemma success_set_memoised_witness :
  let t := new_tester Toy.pos_answers Toy.neg_answers in
  let first := success_set Toy.engine t Toy.via_p in
  let t2 := foldl (tester_call Toy.core Toy.engine) first.2
                  [call_test Toy.via_q] in
  (list_to_set (Toy.via_p ++ Toy.via_p)
     : gset (Toy.Literal * list Toy.Literal)) = list_to_set Toy.via_p ∧
  success_set Toy.engine t2 (Toy.via_p ++ Toy.via_p) = (first.1, t2).
Proof.
  cbv zeta.
  assert (Hkey : (list_to_set (Toy.via_p ++ Toy.via_p)
                    : gset (Toy.Literal * list Toy.Literal))
                 = list_to_set Toy.via_p)
    by (by rewrite list_to_set_app_L, (idemp_L (∪))).
  split; [exact Hkey |].
  exact (success_set_memoised Toy.core Toy.engine
           (new_tester Toy.pos_answers Toy.neg_answers)
           Toy.via_p (Toy.via_p ++ Toy.via_p) [call_test Toy.via_q] Hkey).
Defined.

(** X8 on the small learning problem: two clauses with distinct
    signatures, checked by a fresh Tester. *)
Lemma check_redundant_literal_first_check_witness :
  let t := new_tester Toy.pos_answers Toy.neg_answers in
  let program := [Toy.via_pq; (Toy.head_f, [Toy.body_p])] in
  let r := check_redundant_literal Toy.core Toy.engine t program in
  NoDup (clause_hash Toy.core <$> program) ∧
  (∀ c, c ∈ program →
        clause_hash Toy.core c ∉ already_checked_redundant_literals t) ∧
  r.1 = filter (λ c, redundant_literal Toy.engine c) program ∧
  prolog r.2 = prolog t ++ (redundant_literal_query <$> program) ∧
  already_checked_redundant_literals r.2
  = already_checked_redundant_literals t
    ∪ list_to_set (clause_hash Toy.core <$> program).
Proof.
  cbv zeta.
  assert (Hnd : NoDup (clause_hash Toy.core
                         <$> [Toy.via_pq; (Toy.head_f, [Toy.body_p])])).
  { apply (bool_decide_unpack _). vm_compute. exact I. }
  assert (Hfresh : ∀ c, c ∈ [Toy.via_pq; (Toy.head_f, [Toy.body_p])] →
            clause_hash Toy.core c
              ∉ already_checked_redundant_literals
                  (new_tester (Literal := Toy.Literal)
                     Toy.pos_answers Toy.neg_answers))
    by (intros c _; apply not_elem_of_empty).
  split; [exact Hnd |]. split; [exact Hfresh |].
  exact (check_redundant_literal_first_check Toy.core Toy.engine
           (new_tester Toy.pos_answers Toy.neg_answers)
           [Toy.via_pq; (Toy.head_f, [Toy.body_p])] Hnd Hfresh).
Defined.

(** X9 on the small learning problem, with the engine that looks at the
    clauses only. *)
Lemma test_independent_of_history_witness :
  let t0 := new_tester Toy.pos_answers Toy.neg_answers in
  let calls := [call_test (Toy.via_p ++ Toy.via_p); call_test Toy.via_q] in
  order_blind Toy.blind_engine ∧
  (test Toy.core Toy.blind_engine
        (foldl (tester_call Toy.core Toy.blind_engine) t0 calls) Toy.via_p).1
  = (test Toy.core Toy.blind_engine t0 Toy.via_p).1.
Proof.
  cbv zeta.
  assert (Hblind : order_blind Toy.blind_engine).
  { intros rules rules' Hkey. cbn [success_set_Xs Toy.blind_engine].
    assert (Hin : (Toy.head_f, [Toy.body_p]) ∈ rules
                  ↔ (Toy.head_f, [Toy.body_p]) ∈ rules').
    { rewrite <- !(elem_of_list_to_set
                     (C := gset (Toy.Literal * list Toy.Literal))).
      by rewrite Hkey. }
    by rewrite (bool_decide_ext _ _ Hin). }
  split; [exact Hblind |].
  exact (test_independent_of_history Toy.core Toy.blind_engine
           Toy.find_bindings Toy.pos_answers Toy.neg_answers
           [call_test (Toy.via_p ++ Toy.via_p); call_test Toy.via_q]
           Toy.via_p Hblind).
Defined.

(** X10 on the small learning problem: the same two constraints in
    another order, one of them twice. *)
Lemma ground_rules_order_irrelevant_witness :
  let c2 : Toy.Literal * list Toy.Literal :=
    (Toy.head_false, [Toy.body_literal]) in
  (∀ c, c ∈ [Toy.a_constraint; c2] ↔ c ∈ [c2; Toy.a_constraint; c2]) ∧
  (ground_rules Toy.core Toy.find_bindings [] 2 3 [Toy.a_constraint; c2]).1
  = (ground_rules Toy.core Toy.find_bindings [(c2, 1, 1)] 2 3
                  [c2; Toy.a_constraint; c2]).1.
Proof.
  cbv zeta.
  assert (Hsame : ∀ c : Toy.Literal * list Toy.Literal,
            c ∈ [Toy.a_constraint; (Toy.head_false, [Toy.body_literal])]
            ↔ c ∈ [(Toy.head_false, [Toy.body_literal]); Toy.a_constraint;
                   (Toy.head_false, [Toy.body_literal])]).
  { intros c. rewrite !elem_of_cons, !elem_of_nil. tauto. }
  split; [exact Hsame |].
  exact (ground_rules_order_irrelevant Toy.core Toy.find_bindings
           [] [((Toy.head_false, [Toy.body_literal]), 1, 1)] 2 3 _ _ Hsame).
Defined.

(** X19 on the small learning problem without its examples: the first
    candidate, via_q, is returned. *)
Lemma popper_loop_without_examples_witness :
  let tester0 : Tester := new_tester (@nil string) [] in
  pos tester0 = [] ∧ neg tester0 = [] ∧
  1 ≤ max_literals Toy.settings ∧
  get_model Toy.clingo
    (update_number_of_literals Toy.clingo 1 (new_solver Toy.clingo Toy.settings))
  = (Some Toy.via_q, [Toy.via_p]) ∧
  ∃ r, popper_loop Toy.core Toy.engine Toy.clingo Toy.find_bindings
                   Toy.constrainer 1 Toy.settings
                   (loop_entry (new_solver Toy.clingo Toy.settings) tester0
                               0 None)
       = Found r ∧
       args r = Some (Toy.via_q, (0, 0, 0, 0)) ∧
       best_score r = Some 0 ∧
       total_programs r = 0 + 1 ∧
       solver r = [Toy.via_p] ∧ grounder r = [].
Proof.
  cbv zeta.
  assert (Hmax : 1 ≤ max_literals Toy.settings) by (simpl; lia).
  assert (Hget : get_model Toy.clingo
                   (update_number_of_literals Toy.clingo 1
                      (new_solver Toy.clingo Toy.settings))
                 = (Some Toy.via_q, [Toy.via_p])) by reflexivity.
  split; [reflexivity |]. split; [reflexivity |].
  split; [exact Hmax |]. split; [exact Hget |].
  exact (popper_loop_without_examples Toy.core Toy.engine Toy.clingo
           Toy.find_bindings Toy.constrainer 0 Toy.settings
           (new_solver Toy.clingo Toy.settings)
           (new_tester (@nil string) []) 0 None Toy.via_q [Toy.via_p]
           eq_refl eq_refl Hmax Hget).
Defined.
